(** * liquid-cpp: the value and syntax-tree core ([src/common.h])

    A shallow embedding of [Liquid::Variant] and [Liquid::Node] and the
    properties the specification states about them.

    Conventions of the embedding.
    - A C++ integer ([long long], [size_t], a pointer) is a [Z]; the null
      pointer is [0].
    - A [double] is a [spec_float] read at binary64 ([prec = 53],
      [emax = 1024]).
    - A [std::string] is a [string]; a character is an [ascii].
    - A member function that can leave defined behaviour (it reads a union
      member that is not the live one, reads outside the bytes a view refers
      to, casts a [double] that is no [long long], or fails an [assert])
      returns an [outcome].
    - A union is the member written last; the discriminant is a field of
      its own, so that a discriminant and a payload that disagree can be
      told apart from a well-formed value.
    - A [unique_ptr<Node>] owns its node: a tree of nodes is a tree, and a
      reference to a node inside it is a path of child indices.

    Names follow the source. [Type] and [Variable] are reserved in Rocq:
    the enumeration is [Variant.Type_] and the struct [Variable_]. The
    operators are [eq] ([==]), [lt] ([<]), [assign] and [assign_move]
    ([=]); [copy] and [move] are the copy and move constructors.

    The definitions come first ([Variant], [Node], the library functions
    they call, then the notions the specification uses), the properties
    after them. *)

From Stdlib Require Import ZArith List String Ascii Bool Lia.
From Stdlib Require Import Floats.SpecFloat.
Import ListNotations.

Local Open Scope string_scope.
Local Open Scope Z_scope.

Set Implicit Arguments.
Set Warnings "-register-all".

(** ** Outcomes of a call *)

Inductive outcome (A : Type) : Type :=
| Return (a : A)          (* the call returns [a] *)
| AssertFail              (* an [assert] aborted the program *)
| Undefined.              (* the call left defined behaviour *)

Arguments AssertFail {A}.
Arguments Undefined {A}.

Definition bind {A B : Type} (c : outcome A) (k : A -> outcome B) : outcome B :=
  match c with
  | Return a => k a
  | AssertFail => AssertFail
  | Undefined => Undefined
  end.

Notation "x <- c ;; k" := (bind c (fun x => k))
  (at level 61, c at next level, right associativity).
Notation "' p <- c ;; k" := (bind c (fun x => let p := x in k))
  (at level 61, p pattern, c at next level, right associativity).

(** [c1 && c2] of C++: the right operand is evaluated only when the left one
    is true. *)
Definition and_then (c1 : bool) (c2 : outcome bool) : outcome bool :=
  if c1 then c2 else Return false.

Definition returns {A : Type} (c : outcome A) : Prop := exists a, c = Return a.

(** ** Machine types *)

Definition ptr := Z.
Definition nullptr : ptr := 0.
Definition double := spec_float.

Definition LLONG_MAX : Z := 2 ^ 63 - 1.
Definition LLONG_MIN : Z := - 2 ^ 63.
Definition SIZE_MAX : Z := 2 ^ 64 - 1.

Definition is_long_long (i : Z) : bool := (LLONG_MIN <=? i) && (i <=? LLONG_MAX).
Definition is_size_t (n : Z) : bool := (0 <=? n) && (n <=? SIZE_MAX).
Definition is_double (f : double) : bool := valid_binary 53 1024 f.

(** [!f] and [f == g] on doubles. *)
Definition double_zero : double := S754_zero false.
Definition double_eq (f g : double) : bool := SFeqb f g.
Definition double_lt (f g : double) : bool := SFltb f g.
Definition double_not (f : double) : bool := double_eq f double_zero.

(** ** Memory a string view refers to

    One block of bytes starting at address [base]. *)

Record Memory := { base : ptr; bytes : string }.

Fixpoint drop (n : nat) (s : string) : string :=
  match n, s with
  | O, _ => s
  | S n', String _ s' => drop n' s'
  | S _, EmptyString => EmptyString
  end.

Fixpoint take (n : nat) (s : string) : string :=
  match n, s with
  | S n', String c s' => String c (take n' s')
  | _, _ => EmptyString
  end.

(** The bytes from [p] to the end of the block, when [p] points into it. *)
Definition chars_at (m : Memory) (p : ptr) : outcome string :=
  if (1 <=? base m) && (base m <=? p) && (p <=? base m + Z.of_nat (length (bytes m)))
  then Return (drop (Z.to_nat (p - base m)) (bytes m))
  else Undefined.

(** [std::string(view, len)]: the [len] bytes at [view]. *)
Definition string_of_view (m : Memory) (view : ptr) (len : Z) : outcome string :=
  rest <- chars_at m view ;;
  if (0 <=? len) && (len <=? Z.of_nat (length rest))
  then Return (take (Z.to_nat len) rest)
  else Undefined.

(** ** The C library functions the source calls

    [atoll], [atof], [snprintf] with ["%f"] and [std::to_string] are not part
    of the repository; they are modelled here after the C standard and the
    GNU C library (correct rounding, saturation on overflow). *)

Module LibC.

Definition code (c : ascii) : Z := Z.of_N (N_of_ascii c).

Definition isspace (c : ascii) : bool :=
  (code c =? 32) || ((9 <=? code c) && (code c <=? 13)).

Definition isdigit (c : ascii) : bool := (48 <=? code c) && (code c <=? 57).

Definition tolower (c : ascii) : ascii :=
  if (65 <=? code c) && (code c <=? 90) then ascii_of_N (Z.to_N (code c + 32)) else c.

(** Value of a hexadecimal digit. *)
Definition xdigit (c : ascii) : option Z :=
  let n := code (tolower c) in
  if isdigit c then Some (code c - 48)
  else if (97 <=? n) && (n <=? 102) then Some (n - 87)
  else None.

Fixpoint skip_spaces (s : string) : string :=
  match s with
  | String c s' => if isspace c then skip_spaces s' else s
  | EmptyString => s
  end.

(** An optional sign: [true] for ['-']. *)
Definition sign (s : string) : bool * string :=
  match s with
  | String "-" s' => (true, s')
  | String "+" s' => (false, s')
  | _ => (false, s)
  end.

(** The longest run of digits in base [radix] at the head of [s]: its
    value on top of [acc], the number of digits, and the rest. *)
Fixpoint digits (radix : Z) (acc : Z) (count : Z) (s : string) : Z * Z * string :=
  match s with
  | String c s' =>
      match xdigit c with
      | Some d => if d <? radix then digits radix (acc * radix + d) (count + 1) s'
                  else (acc, count, s)
      | None => (acc, count, s)
      end
  | EmptyString => (acc, count, s)
  end.

Definition clamp_long_long (z : Z) : Z := Z.max LLONG_MIN (Z.min LLONG_MAX z).

(** [atoll(s)], that is [strtoll(s, NULL, 10)]. *)
Definition atoll (s : string) : Z :=
  let '(neg, s1) := sign (skip_spaces s) in
  let '(v, _, _) := digits 10 0 0 s1 in
  clamp_long_long (if neg then - v else v).

(** The binary64 number nearest to [m * 2^e2 * 10^e10] (ties to even). *)
Definition nearest_double (neg : bool) (m e2 e10 : Z) : double :=
  match m with
  | Zpos _ =>
      if 0 <=? e10 then
        binary_round 53 1024 neg (Z.to_pos (m * 10 ^ e10)) e2
      else
        let '(q, e, l) := SFdiv_core_binary 53 1024 m e2 (10 ^ (- e10)) 0 in
        binary_round_aux 53 1024 neg q e l
  | _ => S754_zero neg
  end.

(** An optional exponent part introduced by [marker] (lower case). *)
Definition exponent (marker : ascii) (s : string) : Z :=
  match s with
  | String c s' =>
      if Ascii.eqb (tolower c) marker then
        let '(neg, s1) := sign s' in
        let '(v, n, _) := digits 10 0 0 s1 in
        if 0 <? n then (if neg then - v else v) else 0
      else 0
  | EmptyString => 0
  end.

(** Mantissa digits in base [radix] with an optional radix point: value of
    all digits, number of digits, number of digits after the point, rest. *)
Definition mantissa (radix : Z) (s : string) : Z * Z * Z * string :=
  let '(v1, n1, s1) := digits radix 0 0 s in
  match s1 with
  | String "." s2 =>
      let '(v2, n2, s3) := digits radix v1 0 s2 in
      if 0 <? n1 + n2 then (v2, n1 + n2, n2, s3) else (0, 0, 0, s)
  | _ => (v1, n1, 0, s1)
  end.

Fixpoint prefix_nocase (p s : string) : bool :=
  match p, s with
  | EmptyString, _ => true
  | String a p', String c s' => Ascii.eqb a (tolower c) && prefix_nocase p' s'
  | String _ _, EmptyString => false
  end.

(** [strtod(s, NULL)]; zero when no conversion can be performed. *)
Definition strtod (s : string) : double :=
  let '(neg, s1) := sign (skip_spaces s) in
  if prefix_nocase "inf" s1 then S754_infinity neg
  else if prefix_nocase "nan" s1 then S754_nan
  else
    let hex :=
      if prefix_nocase "0x" s1 then
        let '(m, n, frac, rest) := mantissa 16 (drop 2 s1) in
        if 0 <? n then Some (nearest_double neg m (exponent "p" rest - 4 * frac) 0)
        else None
      else None in
    match hex with
    | Some f => f
    | None =>
        let '(m, n, frac, rest) := mantissa 10 s1 in
        if 0 <? n then nearest_double neg m 0 (exponent "e" rest - frac)
        else double_zero
    end.

Definition atof (s : string) : double := strtod s.

(** Decimal digits of a non-negative integer. *)
Definition digit_char (d : Z) : ascii := ascii_of_N (Z.to_N (48 + d)).

Fixpoint decimal_loop (fuel : nat) (n : Z) (acc : string) : string :=
  match fuel with
  | O => acc
  | S fuel' =>
      let acc' := String (digit_char (n mod 10)) acc in
      if n <? 10 then acc' else decimal_loop fuel' (n / 10) acc'
  end.

Definition decimal (n : Z) : string :=
  decimal_loop (S (Z.to_nat (Z.log2 n))) n "".

(** [std::to_string(long long)]. *)
Definition to_string (i : Z) : string :=
  if i <? 0 then String "-" (decimal (- i)) else decimal i.

(** [m * 2^e * 10^6] rounded to an integer, ties to even. *)
Definition scaled_millionths (m : positive) (e : Z) : Z :=
  if 0 <=? e then Zpos m * 2 ^ e * 10 ^ 6
  else
    let n := Zpos m * 10 ^ 6 in
    let d := 2 ^ (- e) in
    let q := n / d in
    match 2 * (n mod d) ?= d with
    | Lt => q
    | Gt => q + 1
    | Eq => if Z.even q then q else q + 1
    end.

Definition six_digits (r : Z) : string :=
  String (digit_char (r / 100000 mod 10))
 (String (digit_char (r / 10000 mod 10))
 (String (digit_char (r / 1000 mod 10))
 (String (digit_char (r / 100 mod 10))
 (String (digit_char (r / 10 mod 10))
 (String (digit_char (r mod 10)) ""))))).

Definition minus (neg : bool) (s : string) : string :=
  if neg then String "-" s else s.

(** The characters ["%f"] produces for [f] in the C locale. A [spec_float]
    NaN has no sign, so the ["-nan"] of a negative NaN is not told apart. *)
Definition format_f (f : double) : string :=
  match f with
  | S754_nan => "nan"
  | S754_infinity s => minus s "inf"
  | S754_zero s => minus s "0.000000"
  | S754_finite s m e =>
      let q := scaled_millionths m e in
      minus s (decimal (q / 10 ^ 6) ++ String "." (six_digits (q mod 10 ^ 6)))
  end.

(** [snprintf(buffer, size, "%f", f)]: the initialised part of the buffer
    (the characters that fit, then a NUL) and the returned length, which
    is that of the whole text. *)
Definition snprintf_f (size : Z) (f : double) : string * Z :=
  let text := format_f f in
  (take (Z.to_nat (size - 1)) text ++ String zero "", Z.of_nat (length text)).

End LibC.

(** A C string: the characters before the first NUL. *)
Fixpoint up_to_nul (s : string) : option string :=
  match s with
  | String c s' =>
      if Ascii.eqb c zero then Some EmptyString
      else option_map (String c) (up_to_nul s')
  | EmptyString => None
  end.

(** [s.c_str()] as a C string. *)
Definition c_str (s : string) : string :=
  match up_to_nul s with Some t => t | None => s end.

(** The C string at address [p]; the block must hold its terminator. *)
Definition c_str_at (m : Memory) (p : ptr) : outcome string :=
  rest <- chars_at m p ;;
  match up_to_nul rest with Some t => Return t | None => Undefined end.

(** [(long long)f]: truncation toward zero. The behaviour is undefined
    when the truncated value is not a [long long], and for a NaN or an
    infinity. *)
Definition to_long_long (f : double) : outcome Z :=
  match f with
  | S754_zero _ => Return 0
  | S754_finite s m e =>
      let mag := if 0 <=? e then Zpos m * 2 ^ e else Zpos m / 2 ^ (- e) in
      let v := if s then - mag else mag in
      if is_long_long v then Return v else Undefined
  | _ => Undefined
  end.

(** [(double)i]: the nearest double. *)
Definition to_double (i : Z) : double := binary_normalize 53 1024 i 0 false.

(** ** [struct Variable] *)

Record Variable_ := { pointer : ptr }.

(** ** [enum EFalsiness] *)

Definition FALSY_FALSE : Z := 0.
Definition FALSY_0 : Z := 1.
Definition FALSY_EMPTY_STRING : Z := 2.
Definition FALSY_NIL : Z := 4.

(** An integer used as a condition. *)
Definition nonzero (z : Z) : bool := negb (z =? 0).

(** [std::vector]'s element-wise operations run a member function over each
    element in turn. *)
Definition mapM {A B : Type} (f : A -> outcome B) : list A -> outcome (list B) :=
  fix go (l : list A) : outcome (list B) :=
    match l with
    | [] => Return []
    | x :: l' => y <- f x ;; r <- go l' ;; Return (y :: r)
    end.

(** [dst = src] on vectors, [std::vector<T>::operator=(const vector&)], for
    a source that is another object than [dst]. The capacity of [dst] is
    its size and [spare] more. A source that does not fit is copy-constructed
    into new storage and the old elements are destroyed. A source that fits
    is copy-assigned onto the elements already there, one by one with
    [T::operator=]; the elements [dst] lacks are copy-constructed after
    them, and the elements it has too many are destroyed. [assign k]
    assigns onto the element at index [k]. libstdc++, libc++ and the MSVC
    library all do this. *)
Definition assign_onto {A E : Type} (copy : A -> outcome A) (destroy : A -> outcome E)
    (assign : nat -> A -> A -> outcome A) : nat -> list A -> list A -> outcome (list A) :=
  fix go (k : nat) (dst src : list A) {struct dst} : outcome (list A) :=
    match dst, src with
    | x :: dst', y :: src' =>
        x' <- assign k x y ;;
        r <- go (S k) dst' src' ;;
        Return (x' :: r)
    | [], rest => mapM copy rest
    | surplus, [] => _ <- mapM destroy surplus ;; Return []
    end.

Definition vector_assign {A E : Type} (copy : A -> outcome A) (destroy : A -> outcome E)
    (assign : nat -> A -> A -> outcome A) (spare : nat) (dst src : list A)
  : outcome (list A) :=
  if (List.length dst + spare <? List.length src)%nat then
    fresh <- mapM copy src ;;
    _ <- mapM destroy dst ;;
    Return fresh
  else assign_onto copy destroy assign O dst src.

(** A loop over the elements of a vector that threads a state. *)
Definition foldM {A S : Type} (f : A -> S -> outcome S) : list A -> S -> outcome S :=
  fix go (l : list A) (s : S) : outcome S :=
    match l with
    | [] => Return s
    | x :: l' => s' <- f x s ;; go l' s'
    end.

(** ** [std::hash]

    The standard fixes no hash values, only that a specialisation is a
    function of its argument and that keys that compare equal hash alike
    (which matters for [0.0] and [-0.0]). *)

Class StdHash : Type := {
  hash_string : string -> Z;       (* std::hash<string> *)
  hash_long_long : Z -> Z;         (* std::hash<long long> *)
  hash_double : double -> Z;       (* std::hash<double> *)
  hash_bool : bool -> Z;           (* std::hash<bool> *)
  hash_pointer : ptr -> Z          (* std::hash<void*> *)
}.

Definition hash_proper (H : StdHash) : Prop :=
  forall f g : double, double_eq f g = true -> hash_double f = hash_double g.

(** One such family: FNV-1a over the characters of a string, the value
    itself for integers and pointers, the bits of a non-zero double. *)

Definition fnv_offset_basis : Z := 14695981039346656037.
Definition fnv_prime : Z := 1099511628211.

Fixpoint fnv1a (h : Z) (s : string) : Z :=
  match s with
  | EmptyString => h
  | String c s' => fnv1a ((Z.lxor h (LibC.code c) * fnv_prime) mod 2 ^ 64) s'
  end.

Definition double_bits (f : double) : Z :=
  match f with
  | S754_zero s => if s then 2 ^ 63 else 0
  | S754_infinity s => (if s then 2 ^ 63 else 0) + 2047 * 2 ^ 52
  | S754_nan => 2047 * 2 ^ 52 + 2 ^ 51
  | S754_finite s m e =>
      (if s then 2 ^ 63 else 0)
      + (if Zpos m <? 2 ^ 52 then Zpos m else (e + 1075) * 2 ^ 52 + (Zpos m - 2 ^ 52))
  end.

Definition fnv_hash : StdHash := {|
  hash_string := fnv1a fnv_offset_basis;
  hash_long_long := fun i => i mod 2 ^ 64;
  hash_double := fun f => match f with S754_zero _ => 0 | _ => double_bits f end;
  hash_bool := fun b => if b then 1 else 0;
  hash_pointer := fun p => p
|}.

(** ** [struct Variant] *)

Module Variant.

(** [enum class Type] *)
Inductive Type_ : Set :=
| NIL | BOOL | FLOAT | INT | STRING | STRING_VIEW | ARRAY | VARIABLE | POINTER.

Definition Type_eqb (x y : Type_) : bool :=
  match x, y with
  | NIL, NIL | BOOL, BOOL | FLOAT, FLOAT | INT, INT | STRING, STRING
  | STRING_VIEW, STRING_VIEW | ARRAY, ARRAY | VARIABLE, VARIABLE
  | POINTER, POINTER => true
  | _, _ => false
  end.

(** The anonymous union: which member was written last, and its value.
    [raw] is storage no member of which has been written. *)
Inductive union (V : Type) : Type :=
| raw
| b_ (b : bool)
| f_ (f : double)
| i_ (i : Z)
| s_ (s : string)
| p_ (p : ptr)
| v_ (v : Variable_)
| a_ (a : list V)
| view_len (view : ptr) (len : Z).

Arguments raw {V}.
Arguments b_ {V}.
Arguments f_ {V}.
Arguments i_ {V}.
Arguments s_ {V}.
Arguments p_ {V}.
Arguments v_ {V}.
Arguments view_len {V}.

Inductive t : Type := mk { type : Type_; u : union t }.

(** *** Reading a member

    A member is read from the storage last written through it. The
    pointer members [p], [v.pointer] and [view] all lie at offset 0 and
    have one representation, so [p] also reads a stored [v] or [view]. *)

Definition get_b (x : t) : outcome bool :=
  match u x with b_ b => Return b | _ => Undefined end.
Definition get_f (x : t) : outcome double :=
  match u x with f_ f => Return f | _ => Undefined end.
Definition get_i (x : t) : outcome Z :=
  match u x with i_ i => Return i | _ => Undefined end.
Definition get_s (x : t) : outcome string :=
  match u x with s_ s => Return s | _ => Undefined end.
Definition get_a (x : t) : outcome (list t) :=
  match u x with a_ a => Return a | _ => Undefined end.
Definition get_v (x : t) : outcome Variable_ :=
  match u x with v_ v => Return v | _ => Undefined end.
Definition get_view (x : t) : outcome ptr :=
  match u x with view_len view _ => Return view | _ => Undefined end.
Definition get_len (x : t) : outcome Z :=
  match u x with view_len _ len => Return len | _ => Undefined end.
Definition get_p (x : t) : outcome ptr :=
  match u x with
  | p_ p => Return p
  | v_ v => Return (pointer v)
  | view_len view _ => Return view
  | _ => Undefined
  end.

(** *** Constructors *)

Definition default : t := mk NIL raw.                          (* Variant() *)
Definition of_bool (b : bool) : t := mk BOOL (b_ b).            (* Variant(bool) *)
Definition of_double (f : double) : t := mk FLOAT (f_ f).       (* Variant(double) *)
Definition of_long_long (i : Z) : t := mk INT (i_ i).           (* Variant(long long) *)
Definition of_string (s : string) : t := mk STRING (s_ s).      (* Variant(const std::string&) *)
Definition of_view (view : ptr) (len : Z) : t :=                (* Variant(const char*, size_t) *)
  mk STRING_VIEW (view_len view len).
Definition of_Variable (v : Variable_) : t := mk VARIABLE (v_ v). (* Variant(Variable) *)
Definition of_pointer (p : ptr) : t :=                          (* Variant(void* ) *)
  mk (if nonzero p then POINTER else NIL) (p_ p).
Definition of_nullptr : t := mk NIL (p_ nullptr).               (* Variant(std::nullptr_t) *)
Definition of_vector (a : list t) : t := mk ARRAY (a_ a).       (* Variant(const std::vector<Variant>&) *)

(** *** Well-formed variants

    The member named by the discriminant is the live one, numbers are in
    the range of their C++ type, and the elements of an array are
    well-formed. Every constructor builds such a variant. *)

Fixpoint valid (x : t) : bool :=
  match type x, u x with
  | NIL, (raw | b_ _ | f_ _ | i_ _ | p_ _ | v_ _) => true
  | BOOL, b_ _ => true
  | FLOAT, f_ f => is_double f
  | INT, i_ i => is_long_long i
  | STRING, s_ _ => true
  | STRING_VIEW, view_len _ len => is_size_t len
  | ARRAY, a_ a => forallb valid a
  | VARIABLE, v_ _ => true
  | POINTER, p_ _ => true
  | _, _ => false
  end.

(** *** [Variant(const Variant& v)] *)

Fixpoint copy (v : t) : outcome t :=
  match type v with
  | STRING => s <- get_s v ;; Return (mk STRING (s_ s))
  | ARRAY =>
      match u v with
      | a_ a => a' <- mapM copy a ;; Return (mk ARRAY (a_ a'))
      | _ => Undefined
      end
  | STRING_VIEW =>
      view <- get_view v ;; len <- get_len v ;;
      Return (mk STRING_VIEW (view_len view len))
  | BOOL => b <- get_b v ;; Return (mk BOOL (b_ b))
  | FLOAT => f <- get_f v ;; Return (mk FLOAT (f_ f))
  | INT => i <- get_i v ;; Return (mk INT (i_ i))
  | POINTER => p <- get_p v ;; Return (mk POINTER (p_ p))
  | VARIABLE => v' <- get_v v ;; Return (mk VARIABLE (v_ v'))
  | NIL => Return (mk NIL raw)
  end.

(** *** [Variant(Variant&& v)]

    Returns the new variant and what is left of [v]: a moved-from string or
    vector is empty, the other members are copied. *)

Definition move (v : t) : outcome (t * t) :=
  match type v with
  | STRING => s <- get_s v ;; Return (mk STRING (s_ s), mk (type v) (s_ ""))
  | ARRAY => a <- get_a v ;; Return (mk ARRAY (a_ a), mk (type v) (a_ []))
  | STRING_VIEW =>
      view <- get_view v ;; len <- get_len v ;;
      Return (mk STRING_VIEW (view_len view len), v)
  | BOOL => b <- get_b v ;; Return (mk BOOL (b_ b), v)
  | FLOAT => f <- get_f v ;; Return (mk FLOAT (f_ f), v)
  | INT => i <- get_i v ;; Return (mk INT (i_ i), v)
  | POINTER => p <- get_p v ;; Return (mk POINTER (p_ p), v)
  | VARIABLE => v' <- get_v v ;; Return (mk VARIABLE (v_ v'), v)
  | NIL => Return (mk NIL raw, v)
  end.

(** *** Constructor and destructor calls on the storage of a variant *)

Inductive event : Set :=
| destroy_string      (* s.~string() *)
| destroy_vector      (* a.~vector<Variant>() *)
| construct_string    (* new(&s) string *)
| construct_vector.   (* new(&a) vector<Variant>() *)

(** [~Variant()]; the destructor of the vector runs it on every element. *)
Fixpoint destructor (x : t) : outcome (list event) :=
  match type x with
  | STRING => _ <- get_s x ;; Return [destroy_string]
  | ARRAY =>
      match u x with
      | a_ a => _ <- mapM destructor a ;; Return [destroy_vector]
      | _ => Undefined
      end
  | _ => Return []
  end.

(** *** [isTruthy] *)

Definition isTruthy (this : t) (falsiness : Z) : outcome bool :=
  match type this with
  | BOOL => get_b this
  | INT =>
      c <- and_then (nonzero (Z.land falsiness FALSY_0))
                    (i <- get_i this ;; Return (negb (nonzero i))) ;;
      Return (negb c)
  | FLOAT =>
      c <- and_then (nonzero (Z.land falsiness FALSY_0))
                    (f <- get_f this ;; Return (double_not f)) ;;
      Return (negb c)
  | POINTER =>
      c <- and_then (nonzero (Z.land falsiness FALSY_NIL))
                    (p <- get_p this ;; Return (negb (nonzero p))) ;;
      Return (negb c)
  | NIL => Return (negb (nonzero (Z.land falsiness FALSY_NIL)))
  | STRING =>
      c <- and_then (nonzero (Z.land falsiness FALSY_EMPTY_STRING))
                    (s <- get_s this ;; Return (Z.of_nat (length s) =? 0)) ;;
      Return (negb c)
  | _ => Return true
  end.

(** *** [operator ==] *)

(** [a == v.a] on vectors: equal sizes, then [std::equal], which stops at
    the first pair that differs. *)
Definition std_equal {A : Type} (eq : A -> A -> outcome bool)
  : list A -> list A -> outcome bool :=
  fix go (l1 l2 : list A) : outcome bool :=
    match l1, l2 with
    | x :: l1', y :: l2' => c <- eq x y ;; if c then go l1' l2' else Return false
    | _, _ => Return true
    end.

Fixpoint eq (this v : t) {struct this} : outcome bool :=
  if negb (Type_eqb (type this) (type v)) then Return false
  else
    match type this with
    | STRING => s <- get_s this ;; s' <- get_s v ;; Return (String.eqb s s')
    | INT => i <- get_i this ;; i' <- get_i v ;; Return (i =? i')
    | ARRAY =>
        match u this with
        | a_ a =>
            a' <- get_a v ;;
            if (List.length a =? List.length a')%nat then std_equal eq a a' else Return false
        | _ => Undefined
        end
    | FLOAT => f <- get_f this ;; f' <- get_f v ;; Return (double_eq f f')
    | NIL => Return true
    | BOOL => b <- get_b this ;; b' <- get_b v ;; Return (Bool.eqb b b')
    | _ => p <- get_p this ;; p' <- get_p v ;; Return (p =? p')
    end.

(** *** [isNumeric] *)

Definition isNumeric (this : t) : bool :=
  Type_eqb (type this) INT || Type_eqb (type this) FLOAT.

(** *** Reading the character buffer of [getString] *)

(** [buffer[k]], where [buffer] holds the initialised characters. *)
Definition at_ (buffer : string) (k : Z) : outcome ascii :=
  if k <? 0 then Undefined
  else match String.get (Z.to_nat k) buffer with
       | Some c => Return c
       | None => Undefined
       end.

(** [for (i = 0; i < length && buffer[i] != '.'; ++i);] from [i] on; one
    unit of [fuel] per test of the condition. *)
Fixpoint scan_point (fuel : nat) (buffer : string) (length i : Z) : outcome Z :=
  match fuel with
  | O => Undefined
  | S fuel' =>
      c <- and_then (i <? length)
                    (ch <- at_ buffer i ;; Return (negb (Ascii.eqb ch "."))) ;;
      if c then scan_point fuel' buffer length (i + 1) else Return i
  end.

(** [for (j = length; i < length && j > i && buffer[j-1] == '0'; --j);]
    from [j] on. *)
Fixpoint trim_zeros (fuel : nat) (buffer : string) (length i j : Z) : outcome Z :=
  match fuel with
  | O => Undefined
  | S fuel' =>
      c <- and_then (i <? length)
             (and_then (i <? j)
                (ch <- at_ buffer (j - 1) ;; Return (Ascii.eqb ch "0"))) ;;
      if c then trim_zeros fuel' buffer length i (j - 1) else Return j
  end.

(** [string(buffer, n)]: the first [n] characters of the buffer. *)
Definition string_of_buffer (buffer : string) (n : Z) : outcome string :=
  if (0 <=? n) && (n <=? Z.of_nat (String.length buffer))
  then Return (take (Z.to_nat n) buffer)
  else Undefined.

Section Coercions.

Variable m : Memory.

(** *** [getString] *)

Definition getString (this : t) : outcome string :=
  match type this with
  | STRING => get_s this
  | STRING_VIEW =>
      view <- get_view this ;; len <- get_len this ;; string_of_view m view len
  | FLOAT =>
      f <- get_f this ;;
      let '(buffer, length) := LibC.snprintf_f 512 f in
      i <- scan_point (S (Z.to_nat length)) buffer length 0 ;;
      j <- trim_zeros (S (Z.to_nat length)) buffer length i length ;;
      string_of_buffer buffer (if j =? i + 1 then i else j)
  | INT => i <- get_i this ;; Return (LibC.to_string i)
  | BOOL => b <- get_b this ;; Return (if b then "true" else "false")
  | _ => Return ""
  end.

(** *** [getInt] *)

Definition getInt (this : t) : outcome Z :=
  match type this with
  | INT => get_i this
  | FLOAT => f <- get_f this ;; to_long_long f
  | STRING => s <- get_s this ;; Return (LibC.atoll (c_str s))
  | STRING_VIEW => view <- get_view this ;; s <- c_str_at m view ;; Return (LibC.atoll s)
  | _ => Return 0
  end.

(** *** [getFloat] *)

Definition getFloat (this : t) : outcome double :=
  match type this with
  | INT => i <- get_i this ;; Return (to_double i)
  | FLOAT => get_f this
  | STRING => s <- get_s this ;; Return (LibC.atof (c_str s))
  | STRING_VIEW => view <- get_view this ;; s <- c_str_at m view ;; Return (LibC.atof s)
  | _ => Return double_zero
  end.

(** *** [hash] *)

Definition hash `{StdHash} (this : t) : outcome Z :=
  match type this with
  | STRING => s <- get_s this ;; Return (hash_string s)
  | STRING_VIEW => s <- getString this ;; Return (hash_string s)
  | INT => i <- get_i this ;; Return (hash_long_long i)
  | ARRAY => Return 0
  | FLOAT => f <- get_f this ;; Return (hash_double f)
  | NIL => Return 0
  | BOOL => b <- get_b this ;; Return (hash_bool b)
  | _ => p <- get_p this ;; Return (hash_pointer p)
  end.

(** *** [operator <] *)

Definition lt (this v : t) : outcome bool :=
  match type this with
  | INT => i <- get_i this ;; i' <- getInt v ;; Return (i <? i')
  | FLOAT => f <- get_f this ;; f' <- getFloat v ;; Return (double_lt f f')
  | STRING =>
      if Type_eqb (type v) STRING then
        s <- get_s this ;; s' <- get_s v ;; Return (String.ltb s s')
      else
        s <- get_s this ;; s' <- getString v ;; Return (String.ltb s s')
  | STRING_VIEW =>
      s' <- getString v ;;
      view <- get_view this ;; len <- get_len this ;;
      mine <- string_of_view m view len ;;
      Return (String.ltb s' mine)
  | _ => p <- get_p this ;; p' <- get_p v ;; Return (p <? p')
  end.

End Coercions.

(** *** [operator =]

    The assignment operators write members of [*this] and never its
    [type]. They return the new [*this] and the constructor and destructor
    calls made on its storage, in order. *)

Definition set_u (this : t) (x : union t) : t := mk (type this) x.

(** [v.f] read only to be stored again ([f = v.f]): the eight bytes at
    offset 0, whichever scalar member they hold. The bytes of a string or
    vector object are not modelled. *)
Definition get_word (v : t) : outcome (union t) :=
  match u v with
  | s_ _ | a_ _ => Undefined
  | view_len view _ => Return (p_ view)
  | w => Return w
  end.

(** [operator = (const Variant& v)], for a source [v] that is no part of
    [*this]. [a = v.a] is the copy assignment of the vector, which assigns
    onto the elements of [a] with this operator again. [spare] gives the
    unused capacity of every vector in [*this], the vector of [*this]
    itself at [[]] and the one in its element [k] at [k :: path]; a vector
    that was just constructed has none. The calls logged are those on the
    storage of [*this], not those on its elements. *)
Fixpoint assign (spare : list nat -> nat) (this v : t) {struct this}
  : outcome (t * list event) :=
  match type v with
  | STRING =>
      '(this1, log) <-
        (if negb (Type_eqb (type this) STRING) then
           '(this0, log0) <-
             (if Type_eqb (type v) ARRAY then
                _ <- get_a this ;; Return (set_u this raw, [destroy_vector])
              else Return (set_u this (i_ 0), [])) ;;
           Return (set_u this0 (s_ ""), (log0 ++ [construct_string])%list)
         else Return (this, [])) ;;
      _ <- get_s this1 ;;
      s <- get_s v ;;
      Return (set_u this1 (s_ s), log)
  | ARRAY =>
      if negb (Type_eqb (type this) ARRAY) then
        '(this0, log0) <-
          (if Type_eqb (type v) STRING then
             _ <- get_s this ;; Return (set_u this raw, [destroy_string])
           else Return (set_u this (i_ 0), [])) ;;
        a <- get_a v ;;
        a' <- vector_assign copy destructor
                (fun k x y =>
                   '(x', _) <- assign (fun path => spare (k :: path)) x y ;;
                   Return x')
                O [] a ;;
        Return (set_u this0 (a_ a'), (log0 ++ [construct_vector])%list)
      else
        match u this with
        | a_ mine =>
            a <- get_a v ;;
            a' <- vector_assign copy destructor
                    (fun k x y =>
                       '(x', _) <- assign (fun path => spare (k :: path)) x y ;;
                       Return x')
                    (spare []) mine a ;;
            Return (set_u this (a_ a'), [])
        | _ => Undefined
        end
  | STRING_VIEW =>
      view <- get_view v ;; len <- get_len v ;;
      Return (set_u this (view_len view len), [])
  | _ =>
      w <- get_word v ;;
      Return (set_u this w, [])
  end.

(** [operator = (Variant&& v)], for a source [v] that is no part of
    [*this]; also returns what is left of [v]. The move assignment of the
    vector takes the buffer of the source and destroys the elements the
    destination held. *)
Definition assign_move (this v : t) : outcome (t * t * list event) :=
  match type v with
  | STRING =>
      '(this1, log) <-
        (if negb (Type_eqb (type this) STRING) then
           '(this0, log0) <-
             (if Type_eqb (type v) ARRAY then
                _ <- get_a this ;; Return (set_u this raw, [destroy_vector])
              else Return (set_u this (i_ 0), [])) ;;
           Return (set_u this0 (s_ ""), (log0 ++ [construct_string])%list)
         else Return (this, [])) ;;
      _ <- get_s this1 ;;
      s <- get_s v ;;
      Return (set_u this1 (s_ s), set_u v (s_ ""), log)
  | ARRAY =>
      '(this1, log) <-
        (if negb (Type_eqb (type this) ARRAY) then
           '(this0, log0) <-
             (if Type_eqb (type v) STRING then
                _ <- get_s this ;; Return (set_u this raw, [destroy_string])
              else Return (set_u this (i_ 0), [])) ;;
           Return (set_u this0 (a_ []), (log0 ++ [construct_vector])%list)
         else Return (this, [])) ;;
      old <- get_a this1 ;;
      _ <- mapM destructor old ;;
      a <- get_a v ;;
      Return (set_u this1 (a_ a), set_u v (a_ []), log)
  | STRING_VIEW =>
      view <- get_view v ;; len <- get_len v ;;
      Return (set_u this (view_len view len), v, [])
  | _ =>
      w <- get_word v ;;
      Return (set_u this w, v, [])
  end.

End Variant.

(** ** [struct Node]

    [type] is the address of the node's [NodeType], null for a leaf. A
    [unique_ptr<Node>] in [children] owns its node, and the tree stores no
    null child, so the vector of children is a list of nodes. *)

Module Node.

(** The anonymous union; [raw] is storage with no live member. *)
Inductive union (N : Type) : Type :=
| raw
| variant (v : Variant.t)
| children (c : list N).

Arguments raw {N}.
Arguments variant {N}.

Inductive t : Type := mk { type : ptr; line : Z; column : Z; u : union t }.

Definition get_variant (x : t) : outcome Variant.t :=
  match u x with variant v => Return v | _ => Undefined end.
Definition get_children (x : t) : outcome (list t) :=
  match u x with children c => Return c | _ => Undefined end.

Definition set_type (x : t) (type' : ptr) : t := mk type' (line x) (column x) (u x).
Definition set_u (x : t) (u' : union t) : t := mk (type x) (line x) (column x) u'.

(** *** Constructors *)

(** [Node()] *)
Definition default : t := mk nullptr 0 0 (variant Variant.default).

(** [Node(const NodeType* type)] *)
Definition of_type (type : ptr) : t := mk type 0 0 (children []).

(** [Node(const Node& node)] *)
Fixpoint copy (node : t) : outcome t :=
  if nonzero (type node) then
    match u node with
    | children c =>
        c' <- mapM copy c ;;
        Return (mk (type node) (line node) (column node) (children c'))
    | _ => Undefined
    end
  else
    v <- get_variant node ;;
    v' <- Variant.copy v ;;
    Return (mk (type node) (line node) (column node) (variant v')).

(** [Node(const Variant& v)] *)
Definition of_variant (v : Variant.t) : outcome t :=
  v' <- Variant.copy v ;; Return (mk nullptr 0 0 (variant v')).

(** [Node(Node&& node)]; also returns what is left of [node]. *)
Definition move (node : t) : outcome (t * t) :=
  if nonzero (type node) then
    c <- get_children node ;;
    Return (mk (type node) (line node) (column node) (children c),
            set_u node (children []))
  else
    v <- get_variant node ;;
    '(v', rest) <- Variant.move v ;;
    Return (mk (type node) (line node) (column node) (variant v'),
            set_u node (variant rest)).

(** *** Well-formed nodes: a branch holds children, a leaf a well-formed
    variant. *)
Fixpoint valid (node : t) : bool :=
  is_size_t (line node) && is_size_t (column node) &&
  match u node with
  | variant v => negb (nonzero (type node)) && Variant.valid v
  | children c => nonzero (type node) && forallb valid c
  | raw => false
  end.

(** *** [getString] *)
Definition getString (m : Memory) (this : t) : outcome string :=
  if negb (negb (nonzero (type this))) then AssertFail        (* assert(!type) *)
  else v <- get_variant this ;; Variant.getString m v.

(** *** [operator = (const Node& n)], for a source [n] outside [*this] *)
Definition assign (this n : t) : outcome t :=
  this1 <- (if nonzero (type this)
            then _ <- get_children this ;; Return (set_u this raw)
            else Return this) ;;
  this2 <- (if nonzero (type n) then
              c <- get_children n ;;
              c' <- mapM copy c ;;
              Return (set_u this1 (children c'))
            else Return (set_u this1 (variant Variant.default))) ;;
  Return (set_type this2 (type n)).

(** *** [operator = (Node&& n)]

    The source may be a node owned by [*this]. The state is [*this]
    together with one node outside it; the reference [n] names either that
    node or the descendant of [*this] reached by child indices. A
    descendant exists as long as the vectors on its path are live:
    reading through the reference after they were destroyed is a use
    after free. *)

Record state := { this_ : t; other : t }.

Inductive ref : Set :=
| External
| Descendant (k : nat) (path : list nat).

Fixpoint descend (path : list nat) (node : t) : outcome t :=
  match path with
  | [] => Return node
  | k :: path' =>
      c <- get_children node ;;
      match nth_error c k with
      | Some child => descend path' child
      | None => Undefined
      end
  end.

Fixpoint replace (k : nat) (x : t) (c : list t) : outcome (list t) :=
  match k, c with
  | O, _ :: c' => Return (x :: c')
  | S k', y :: c' => r <- replace k' x c' ;; Return (y :: r)
  | _, [] => Undefined
  end.

Fixpoint store (path : list nat) (x : t) (node : t) : outcome t :=
  match path with
  | [] => Return x
  | k :: path' =>
      c <- get_children node ;;
      match nth_error c k with
      | Some child =>
          child' <- store path' x child ;;
          c' <- replace k child' c ;;
          Return (set_u node (children c'))
      | None => Undefined
      end
  end.

Definition read (r : ref) (st : state) : outcome t :=
  match r with
  | External => Return (other st)
  | Descendant k path => descend (k :: path) (this_ st)
  end.

Definition write (r : ref) (x : t) (st : state) : outcome state :=
  match r with
  | External => Return {| this_ := this_ st; other := x |}
  | Descendant k path =>
      this' <- store (k :: path) x (this_ st) ;;
      Return {| this_ := this'; other := other st |}
  end.

Definition set_this (st : state) (x : t) : state := {| this_ := x; other := other st |}.

(** [children = move(n.children)]. The standard lets the library assume
    that the right-hand side is not reachable from the left-hand side, and
    the libraries differ in what they do first. *)
Inductive vector_move_assignment : Set :=
| take_then_release     (* swap the buffers, destroy the old elements last (libstdc++) *)
| release_then_take.    (* destroy the old elements, then take the buffer (libc++, MSVC) *)

Definition children_assign_move (stl : vector_move_assignment) (r : ref) (st : state)
  : outcome state :=
  match stl with
  | take_then_release =>
      n <- read r st ;;
      c <- get_children n ;;
      st1 <- write r (set_u n (children [])) st ;;
      _ <- get_children (this_ st1) ;;
      Return (set_this st1 (set_u (this_ st1) (children c)))
  | release_then_take =>
      _ <- get_children (this_ st) ;;
      let st1 := set_this st (set_u (this_ st) (children [])) in
      n <- read r st1 ;;
      c <- get_children n ;;
      st2 <- write r (set_u n (children [])) st1 ;;
      Return (set_this st2 (set_u (this_ st2) (children c)))
  end.

Definition assign_move (stl : vector_move_assignment) (r : ref) (st : state)
  : outcome state :=
  if nonzero (type (this_ st)) then
    n <- read r st ;;
    if negb (nonzero (type n)) then
      (* Variant v = move(n.variant); *)
      nv <- get_variant n ;;
      '(v, rest) <- Variant.move nv ;;
      st1 <- write r (set_u n (variant rest)) st ;;
      (* type = n.type; *)
      n1 <- read r st1 ;;
      let st2 := set_this st1 (set_type (this_ st1) (type n1)) in
      (* children.~vector<unique_ptr<Node>>(); *)
      _ <- get_children (this_ st2) ;;
      let st3 := set_this st2 (set_u (this_ st2) raw) in
      (* new(&variant) Variant(move(v)); *)
      '(v', _) <- Variant.move v ;;
      Return (set_this st3 (set_u (this_ st3) (variant v')))
    else
      (* type = n.type; children = move(n.children); *)
      let st1 := set_this st (set_type (this_ st) (type n)) in
      children_assign_move stl r st1
  else
    st0 <- (if nonzero (type (this_ st))
            then _ <- get_children (this_ st) ;;
                 Return (set_this st (set_u (this_ st) raw))
            else Return st) ;;
    n <- read r st0 ;;
    st2 <- (if nonzero (type n) then
              (* new(&children) vector<unique_ptr<Node>>(); children = move(n.children); *)
              let st1 := set_this st0 (set_u (this_ st0) (children [])) in
              children_assign_move stl r st1
            else
              (* new(&variant) Variant(move(n.variant)); *)
              nv <- get_variant n ;;
              '(v, rest) <- Variant.move nv ;;
              st1 <- write r (set_u n (variant rest)) st0 ;;
              Return (set_this st1 (set_u (this_ st1) (variant v)))) ;;
    (* type = n.type; *)
    n2 <- read r st2 ;;
    Return (set_this st2 (set_type (this_ st2) (type n2))).

(** *** [walk]

    The callback is passed by value at every level; what a call of it does
    is a function on the state the callback refers to. *)
Fixpoint walk {S : Type} (callback : t -> S -> S) (this : t) (s : S) {struct this}
  : outcome S :=
  let s1 := callback this s in
  if nonzero (type this) then
    match u this with
    | children c => foldM (walk callback) c s1
    | _ => Undefined
    end
  else Return s1.

End Node.

(** * The specification's own notions *)

(** ** The truthiness table of section 4.1 *)

Definition treat_0_as_false (falsiness : Z) : bool := Z.testbit falsiness 0.
Definition treat_empty_string_as_false (falsiness : Z) : bool := Z.testbit falsiness 1.
Definition treat_nil_as_false (falsiness : Z) : bool := Z.testbit falsiness 2.

Definition is_zero (f : double) : bool :=
  match f with S754_zero _ => true | _ => false end.

Definition is_empty (s : string) : bool :=
  match s with EmptyString => true | String _ _ => false end.

Definition truthiness_table (x : Variant.t) (falsiness : Z) : bool :=
  match Variant.type x, Variant.u x with
  | Variant.BOOL, Variant.b_ b => b
  | Variant.INT, Variant.i_ i => negb (treat_0_as_false falsiness && (i =? 0))
  | Variant.FLOAT, Variant.f_ f => negb (treat_0_as_false falsiness && is_zero f)
  | Variant.POINTER, Variant.p_ p => negb (treat_nil_as_false falsiness && (p =? nullptr))
  | Variant.NIL, _ => negb (treat_nil_as_false falsiness)
  | Variant.STRING, Variant.s_ s =>
      negb (treat_empty_string_as_false falsiness && is_empty s)
  | _, _ => true
  end.

(** ** Numbers in text *)

(** A text that does not go on with a digit. *)
Definition stops (rest : string) : bool :=
  match rest with
  | String c _ => negb (LibC.isdigit c)
  | EmptyString => true
  end.

(** Text that offers [atoll] no digit. *)
Definition no_digits (s : string) : bool := stops (snd (LibC.sign (LibC.skip_spaces s))).

(** Text that offers [atof] no number: after blanks and a sign it is empty
    or starts with a character that begins neither digits, a fraction,
    an infinity nor a NaN. *)
Definition no_float (s : string) : bool :=
  match snd (LibC.sign (LibC.skip_spaces s)) with
  | EmptyString => true
  | String c _ =>
      negb (LibC.isdigit c || Ascii.eqb c "." || Ascii.eqb (LibC.tolower c) "i"
            || Ascii.eqb (LibC.tolower c) "n")
  end.

(** Discriminants that carry neither a number nor text. *)
Definition no_number (ty : Variant.Type_) : bool :=
  match ty with
  | Variant.NIL | Variant.BOOL | Variant.ARRAY | Variant.VARIABLE | Variant.POINTER => true
  | _ => false
  end.

(** ** Trimming a fixed-notation rendering

    The text before the first ['.'] and, when there is one, the text after
    it. *)

Fixpoint split_point (s : string) : string * option string :=
  match s with
  | EmptyString => (EmptyString, None)
  | String c s' =>
      if Ascii.eqb c "." then (EmptyString, Some s')
      else let '(ip, frac) := split_point s' in (String c ip, frac)
  end.

Fixpoint trim_trailing_zeros (s : string) : string :=
  match s with
  | EmptyString => EmptyString
  | String c s' =>
      let r := trim_trailing_zeros s' in
      if is_empty r && Ascii.eqb c "0" then EmptyString else String c r
  end.

(** The rendering without its trailing fractional zeros, and without the
    decimal point when no fractional digit is left. *)
Definition trimmed (text : string) : string :=
  match split_point text with
  | (ip, None) => ip
  | (ip, Some frac) =>
      let frac' := trim_trailing_zeros frac in
      if is_empty frac' then ip else (ip ++ String "." frac')%string
  end.

Fixpoint zeros (k : nat) : string :=
  match k with
  | O => EmptyString
  | S k' => String "0" (zeros k')
  end.

(** ** What a copy is to preserve

    The discriminant and the live payload of a variant: the storage of a
    Nil, which the copy constructor does not copy, is left out. *)

Fixpoint value_of (x : Variant.t) : Variant.t :=
  match x with
  | Variant.mk Variant.NIL _ => Variant.mk Variant.NIL Variant.raw
  | Variant.mk ty (Variant.a_ a) => Variant.mk ty (Variant.a_ (map value_of a))
  | Variant.mk ty un => Variant.mk ty un
  end.

(** The tree a node stands for. *)
Fixpoint tree_of (x : Node.t) : Node.t :=
  match x with
  | Node.mk ty l c (Node.variant v) => Node.mk ty l c (Node.variant (value_of v))
  | Node.mk ty l c (Node.children cs) => Node.mk ty l c (Node.children (map tree_of cs))
  | Node.mk ty l c Node.raw => Node.mk ty l c Node.raw
  end.

(** ** Traversal and comparison

    The nodes of a tree, parents before children, children from first to
    last. *)
Fixpoint preorder (x : Node.t) : list Node.t :=
  x :: match Node.u x with
       | Node.children cs => flat_map preorder cs
       | _ => []
       end.

(** A variant that holds no NaN, in itself or in an element. *)
Fixpoint nan_free (x : Variant.t) : bool :=
  match x with
  | Variant.mk Variant.FLOAT (Variant.f_ S754_nan) => false
  | Variant.mk Variant.ARRAY (Variant.a_ a) => forallb nan_free a
  | _ => true
  end.

(** The three answers of [a < b], [a == b], [b < a] when exactly one of
    them is true. *)
Definition exactly_one (l e g : bool) : Prop :=
  (l = true /\ e = false /\ g = false)
  \/ (l = false /\ e = true /\ g = false)
  \/ (l = false /\ e = false /\ g = true).

(** The integer a finite double [m * 2^e] is, if it is one. *)
Definition integer_value (m : positive) (e : Z) : option Z :=
  if 0 <=? e then Some (Zpos m * 2 ^ e)
  else if Zpos m mod 2 ^ (- e) =? 0 then Some (Zpos m / 2 ^ (- e))
  else None.

Fixpoint has_point (s : string) : bool :=
  match s with
  | EmptyString => false
  | String c s' => Ascii.eqb c "." || has_point s'
  end.

Fixpoint last_char (s : string) : option ascii :=
  match s with
  | EmptyString => None
  | String c EmptyString => Some c
  | String _ s' => last_char s'
  end.

Fixpoint all_digits (s : string) : bool :=
  match s with
  | EmptyString => true
  | String c s' => LibC.isdigit c && all_digits s'
  end.

(** * Properties *)

Unset Implicit Arguments.

(** ** Bit masks and doubles *)

Lemma land_pow2_nonzero (z k : Z) :
  0 <= k -> nonzero (Z.land z (2 ^ k)) = Z.testbit z k.
Proof.
  intros Hk. unfold nonzero.
  destruct (Z.testbit z k) eqn:Hbit.
  - apply negb_true_iff, Z.eqb_neq. intros H0.
    assert (Hk' : Z.testbit (Z.land z (2 ^ k)) k = true).
    { rewrite Z.land_spec, Hbit, Z.pow2_bits_true by assumption. reflexivity. }
    rewrite H0, Z.bits_0 in Hk'. discriminate.
  - apply negb_false_iff, Z.eqb_eq, Z.bits_inj'. intros n Hn.
    rewrite Z.land_spec, Z.bits_0.
    destruct (Z.eq_dec k n) as [->|Hne].
    + rewrite Hbit. reflexivity.
    + rewrite (Z.pow2_bits_false k n) by assumption. apply andb_false_r.
Qed.

Lemma falsy_0_flag (z : Z) : nonzero (Z.land z FALSY_0) = treat_0_as_false z.
Proof. exact (land_pow2_nonzero z 0 (Z.le_refl 0)). Qed.

Lemma falsy_empty_string_flag (z : Z) :
  nonzero (Z.land z FALSY_EMPTY_STRING) = treat_empty_string_as_false z.
Proof. apply (land_pow2_nonzero z 1). lia. Qed.

Lemma falsy_nil_flag (z : Z) : nonzero (Z.land z FALSY_NIL) = treat_nil_as_false z.
Proof. apply (land_pow2_nonzero z 2). lia. Qed.

Lemma double_not_is_zero (f : double) : double_not f = is_zero f.
Proof. destruct f as [s|s| |s m e]; try destruct s; reflexivity. Qed.

Lemma length_zero_is_empty (s : string) :
  (Z.of_nat (String.length s) =? 0) = is_empty s.
Proof. destruct s; reflexivity. Qed.

(** ** Truthiness *)

(** C2. For every well-formed Variant and every falsiness bit mask,
    [isTruthy] returns the entry of the table of section 4.1: a Bool gives
    its boolean; an Int or Float is falsy exactly when the treat-0-as-false
    flag is set and the value is zero; a Pointer exactly when the
    treat-nil-as-false flag is set and the pointer is null; Nil exactly when
    the treat-nil-as-false flag is set; a String exactly when the
    treat-empty-string-as-false flag is set and the string is empty; a
    StringView, Array or Variable handle is always truthy. *)
Theorem isTruthy_table (x : Variant.t) (falsiness : Z) :
  Variant.valid x = true ->
  Variant.isTruthy x falsiness = Return (truthiness_table x falsiness).
Proof.
  destruct x as [ty un]. unfold Variant.isTruthy, truthiness_table.
  rewrite falsy_0_flag, falsy_empty_string_flag, falsy_nil_flag.
  destruct ty, un; simpl; intros Hv; try discriminate; try reflexivity.
  - destruct (treat_0_as_false falsiness); simpl; [|reflexivity].
    rewrite double_not_is_zero. reflexivity.
  - destruct (treat_0_as_false falsiness); simpl; [|reflexivity].
    unfold nonzero. rewrite negb_involutive. reflexivity.
  - destruct (treat_empty_string_as_false falsiness); simpl; [|reflexivity].
    rewrite length_zero_is_empty. reflexivity.
  - destruct (treat_nil_as_false falsiness); simpl; [|reflexivity].
    unfold nonzero. rewrite negb_involutive. reflexivity.
Qed.

Lemma isTruthy_table_witness :
  Variant.valid (Variant.of_long_long 0) = true
  /\ Variant.isTruthy (Variant.of_long_long 0) FALSY_0 = Return false
  /\ Variant.isTruthy (Variant.of_long_long 0) FALSY_FALSE = Return true.
Proof.
  split; [reflexivity|split].
  - exact (isTruthy_table (Variant.of_long_long 0) FALSY_0 eq_refl).
  - exact (isTruthy_table (Variant.of_long_long 0) FALSY_FALSE eq_refl).
Defined.

(** ** Reasoning about outcomes *)

Lemma bind_Return {A B : Type} (c : outcome A) (k : A -> outcome B) (r : B) :
  bind c k = Return r -> exists a, c = Return a /\ k a = Return r.
Proof. destruct c as [a| |]; simpl; intros H; try discriminate. exists a. auto. Qed.

Tactic Notation "bind_inv" hyp(H) "as" simple_intropattern(a) ident(Ha) :=
  apply bind_Return in H; destruct H as (a & Ha & H).

Ltac Return_inv H := inversion H; subst; clear H.

(** ** Assignment of Variants *)

Lemma Type_eqb_eq (x y : Variant.Type_) : Variant.Type_eqb x y = true <-> x = y.
Proof. destruct x, y; simpl; split; intros H; congruence. Qed.

Lemma Type_eqb_refl (x : Variant.Type_) : Variant.Type_eqb x x = true.
Proof. destruct x; reflexivity. Qed.

(** One step of taking apart a hypothesis that says a computation returns. *)
Ltac outcome_step :=
  match goal with
  | H : bind _ _ = Return _ |- _ =>
      apply bind_Return in H; destruct H as (? & ? & H)
  | H : Return _ = Return _ |- _ => inversion H; subst; clear H
  | H : Undefined = Return _ |- _ => discriminate H
  | H : AssertFail = Return _ |- _ => discriminate H
  | H : (let '(_, _) := ?x in _) = Return _ |- _ => destruct x
  | H : (if ?c then _ else _) = Return _ |- _ => destruct c eqn:?
  end.

Ltac outcome_inv := repeat (outcome_step; simpl in * ).

(** Neither assignment operator writes the discriminant of [*this]. *)
Lemma assign_type (spare : list nat -> nat) (this v this' : Variant.t)
    (log : list Variant.event) :
  Variant.assign spare this v = Return (this', log) ->
  Variant.type this' = Variant.type this.
Proof.
  destruct this as [ty un]. cbn [Variant.assign Variant.type Variant.u]. intros H.
  destruct (Variant.type v); try (outcome_inv; reflexivity).
  destruct (negb (Variant.Type_eqb ty Variant.ARRAY)).
  - apply bind_Return in H. destruct H as ([this0 log0] & H0 & H).
    apply bind_Return in H. destruct H as (a & _ & H).
    apply bind_Return in H. destruct H as (a' & _ & H).
    injection H as <- _.
    destruct (Variant.Type_eqb (Variant.type v) Variant.STRING); outcome_inv; reflexivity.
  - destruct un; try discriminate H.
    apply bind_Return in H. destruct H as (a0 & _ & H).
    apply bind_Return in H. destruct H as (a' & _ & H).
    injection H as <- _. reflexivity.
Qed.

Lemma assign_move_type (this v this' v' : Variant.t) (log : list Variant.event) :
  Variant.assign_move this v = Return (this', v', log) ->
  Variant.type this' = Variant.type this.
Proof.
  unfold Variant.assign_move. intros H.
  destruct (Variant.type v); outcome_inv; reflexivity.
Qed.

(** Neither assignment operator runs a destructor on the storage of
    [*this]. *)
Lemma assign_log (spare : list nat -> nat) (this v this' : Variant.t)
    (log : list Variant.event) :
  Variant.assign spare this v = Return (this', log) ->
  log = [] \/ log = [Variant.construct_string] \/ log = [Variant.construct_vector].
Proof.
  destruct this as [ty un]. cbn [Variant.assign Variant.type Variant.u]. intros H.
  destruct (Variant.type v) eqn:Ev; try (outcome_inv; auto; fail).
  destruct (negb (Variant.Type_eqb ty Variant.ARRAY)).
  - cbn [Variant.Type_eqb] in H.
    apply bind_Return in H. destruct H as ([this0 log0] & H0 & H).
    injection H0 as <- <-.
    apply bind_Return in H. destruct H as (a & _ & H).
    apply bind_Return in H. destruct H as (a' & _ & H).
    injection H as _ <-. auto.
  - destruct un; try discriminate H.
    apply bind_Return in H. destruct H as (a0 & _ & H).
    apply bind_Return in H. destruct H as (a' & _ & H).
    injection H as _ <-. auto.
Qed.

Lemma assign_move_log (this v this' v' : Variant.t) (log : list Variant.event) :
  Variant.assign_move this v = Return (this', v', log) ->
  log = [] \/ log = [Variant.construct_string] \/ log = [Variant.construct_vector].
Proof.
  unfold Variant.assign_move. intros H.
  destruct (Variant.type v); outcome_inv; auto.
Qed.

(** C1. After [a = b] the destination is to have the discriminant and the
    payload of the source, so that [a == b], and an owned string or vector
    it held is to be destroyed before the new payload is constructed. The
    operators do neither. Assigning the String ["x"] to the Int [7], by
    copy or by move, stores the string but leaves the discriminant [INT],
    and [a == b] is then false; assigning it to an Array constructs the
    string over the live vector, which is never destroyed; assigning the
    Int [7] to the String ["x"] overwrites the live string. *)
Theorem assign_leaves_discriminant (spare : list nat -> nat) :
  let a := Variant.of_long_long 7 in
  let b := Variant.of_string "x" in
  let c := Variant.of_vector [Variant.of_long_long 1] in
  Variant.assign spare a b = Return (Variant.mk Variant.INT (Variant.s_ "x"), [Variant.construct_string])
  /\ Variant.eq (Variant.mk Variant.INT (Variant.s_ "x")) b = Return false
  /\ Variant.assign_move a b
     = Return (Variant.mk Variant.INT (Variant.s_ "x"), Variant.of_string "",
               [Variant.construct_string])
  /\ Variant.assign spare c b
     = Return (Variant.mk Variant.ARRAY (Variant.s_ "x"), [Variant.construct_string])
  /\ Variant.assign spare b a = Return (Variant.mk Variant.STRING (Variant.i_ 7), []).
Proof. repeat split; reflexivity. Qed.

(** ** Equality and hashing *)

Lemma Pos_compare_cont_Eq (p q : positive) : Pos.compare_cont Eq p q = Eq -> p = q.
Proof. apply Pos.compare_eq. Qed.

Lemma double_eq_cases (f g : double) :
  double_eq f g = true -> (is_zero f = true /\ is_zero g = true) \/ f = g.
Proof.
  unfold double_eq, SFeqb.
  destruct f as [s|s| |s m e], g as [s'|s'| |s' m' e']; simpl;
    try discriminate; auto;
    try (destruct s; discriminate); try (destruct s'; discriminate).
  - destruct s, s'; try discriminate; auto.
  - destruct s, s'; try discriminate; intros H;
      destruct (Z.compare_spec e e') as [->| |]; try discriminate.
    + destruct (Pos.compare_cont Eq m m') eqn:Hm; try discriminate.
      apply Pos_compare_cont_Eq in Hm. subst. auto.
    + destruct (Pos.compare_cont Eq m m') eqn:Hm; try discriminate.
      apply Pos_compare_cont_Eq in Hm. subst. auto.
Qed.

Lemma fnv_hash_proper : hash_proper fnv_hash.
Proof.
  intros f g H. destruct (double_eq_cases f g H) as [[Hf Hg]| ->]; [|reflexivity].
  destruct f, g; try discriminate. reflexivity.
Qed.

(** Equal variants hash alike whenever the left one is not a string view:
    arrays all hash to 0, and every other discriminant hashes the member
    that [==] compares. *)
Lemma eq_hash (H : StdHash) (m : Memory) (a b : Variant.t) :
  hash_proper H ->
  Variant.type a <> Variant.STRING_VIEW ->
  Variant.eq a b = Return true ->
  Variant.hash m a = Variant.hash m b.
Proof.
  intros Hp Hview Heq.
  destruct a as [ta ua], b as [tb ub].
  destruct ta, tb; simpl in *; try discriminate; try congruence;
    unfold Variant.hash; simpl; try reflexivity;
    destruct ua, ub; simpl in *; try discriminate;
    Return_inv Heq;
    match goal with
    | E : Bool.eqb _ _ = true |- _ => apply Bool.eqb_prop in E; subst
    | E : (_ =? _) = true |- _ => apply Z.eqb_eq in E; rewrite E
    | E : (_ =? _)%string = true |- _ => apply String.eqb_eq in E; subst
    | E : double_eq _ _ = true |- _ => rewrite (Hp _ _ E)
    end; reflexivity.
Qed.

Lemma hash_array (H : StdHash) (m : Memory) (un : Variant.union Variant.t) :
  Variant.hash m (Variant.mk Variant.ARRAY un) = Return 0.
Proof. reflexivity. Qed.

(** C5. Variants that compare equal are to hash alike. For string views
    [==] compares only the two [view] pointers, while [hash] hashes the
    [len] characters each view refers to: the views of lengths 1 and 2 at
    one address of a block holding ["ab"] are equal and hash differently
    (here under FNV-1a). *)
Theorem view_eq_hash_differ :
  let m := {| base := 4096; bytes := "ab" |} in
  let a := Variant.of_view 4096 1 in
  let b := Variant.of_view 4096 2 in
  Variant.valid a = true /\ Variant.valid b = true
  /\ Variant.eq a b = Return true
  /\ Variant.hash (H := fnv_hash) m a = Return (fnv1a fnv_offset_basis "a")
  /\ Variant.hash (H := fnv_hash) m b = Return (fnv1a fnv_offset_basis "ab")
  /\ Variant.hash (H := fnv_hash) m a <> Variant.hash (H := fnv_hash) m b.
Proof.
  repeat split; try reflexivity.
  vm_compute. discriminate.
Qed.

(** The same two views separate under every hash of strings that tells
    ["a"] from ["ab"]. *)
Lemma views_hash_apart (H : StdHash) :
  hash_string "a" <> hash_string "ab" ->
  Variant.hash {| base := 4096; bytes := "ab" |} (Variant.of_view 4096 1)
  <> Variant.hash {| base := 4096; bytes := "ab" |} (Variant.of_view 4096 2).
Proof.
  intros Hne Heq. unfold Variant.hash in Heq. simpl in Heq.
  apply Hne. congruence.
Qed.

(** ** Ordering of strings and string views *)

(** A String on the left is compared with the string form of the right
    operand, as the specification says. *)
Lemma lt_string (m : Memory) (s : string) (b : Variant.t) :
  Variant.lt m (Variant.of_string s) b
  = (t <- Variant.getString m b ;; Return (String.ltb s t)).
Proof.
  unfold Variant.lt, Variant.getString. simpl.
  destruct (Variant.type b); reflexivity.
Qed.

(** A StringView on the left is the right-hand operand of the comparison
    the source makes. *)
Lemma lt_view (m : Memory) (view len : Z) (b : Variant.t) :
  Variant.lt m (Variant.of_view view len) b
  = (t <- Variant.getString m b ;;
     mine <- string_of_view m view len ;;
     Return (String.ltb t mine)).
Proof. reflexivity. Qed.

(** C6. [a < b] for a String or StringView [a] is to hold exactly when the
    text of [a] is lexicographically less than the string form of [b]. The
    STRING case does that; the STRING_VIEW case compares the other way
    round, [v.getString() < string(view, len)]: for the view ["a"] and the
    String ["b"] it answers false although ["a" < "b"], and for the view
    ["b"] and the String ["a"] it answers true. *)
Theorem lt_view_reversed :
  let m := {| base := 4096; bytes := "ab" |} in
  let a := Variant.of_view 4096 1 in
  let b := Variant.of_view 4097 1 in
  Variant.getString m a = Return "a"
  /\ Variant.getString m b = Return "b"
  /\ String.ltb "a" "b" = true
  /\ Variant.lt m a (Variant.of_string "b") = Return false
  /\ Variant.lt m b (Variant.of_string "a") = Return true
  /\ Variant.lt m (Variant.of_string "a") (Variant.of_string "b") = Return true
  /\ Variant.lt m (Variant.of_string "a") b = Return true.
Proof. repeat split; reflexivity. Qed.

(** ** Numeric coercions *)

(** [getInt] returns where the cast of a Float is defined and a StringView
    refers to a C string. *)
Lemma getInt_returns (m : Memory) (x : Variant.t) :
  Variant.valid x = true ->
  (Variant.type x = Variant.STRING_VIEW ->
   returns (view <- Variant.get_view x ;; c_str_at m view)) ->
  (Variant.type x = Variant.FLOAT ->
   returns (f <- Variant.get_f x ;; to_long_long f)) ->
  returns (Variant.getInt m x).
Proof.
  destruct x as [ty un]. unfold Variant.getInt, returns.
  destruct ty, un; simpl; intros Hv Hs Hf; try discriminate;
    try (eexists; reflexivity).
  - exact (Hf eq_refl).
  - destruct (Hs eq_refl) as [t Ht]. rewrite Ht. simpl. eexists; reflexivity.
Qed.

Lemma getFloat_returns (m : Memory) (x : Variant.t) :
  Variant.valid x = true ->
  (Variant.type x = Variant.STRING_VIEW ->
   returns (view <- Variant.get_view x ;; c_str_at m view)) ->
  returns (Variant.getFloat m x).
Proof.
  destruct x as [ty un]. unfold Variant.getFloat, returns.
  destruct ty, un; simpl; intros Hv Hs; try discriminate;
    try (eexists; reflexivity).
  destruct (Hs eq_refl) as [t Ht]. rewrite Ht. simpl. eexists; reflexivity.
Qed.


(** *** [atoll] reads back what [to_string] writes *)

Lemma digit_cases (d : Z) :
  0 <= d < 10 ->
  d = 0 \/ d = 1 \/ d = 2 \/ d = 3 \/ d = 4 \/ d = 5 \/ d = 6 \/ d = 7 \/ d = 8 \/ d = 9.
Proof. lia. Qed.

Ltac each_digit d H :=
  destruct (digit_cases d H) as [?|[?|[?|[?|[?|[?|[?|[?|[?|?]]]]]]]]]; subst d.

Lemma xdigit_digit_char (d : Z) :
  0 <= d < 10 -> LibC.xdigit (LibC.digit_char d) = Some d.
Proof. intros H. each_digit d H; reflexivity. Qed.

Lemma digit_char_plain (d : Z) :
  0 <= d < 10 ->
  LibC.isspace (LibC.digit_char d) = false
  /\ LibC.sign (String (LibC.digit_char d) "") = (false, String (LibC.digit_char d) "").
Proof. intros H. each_digit d H; split; reflexivity. Qed.

Lemma digits_step (a c d : Z) (s : string) :
  0 <= d < 10 ->
  LibC.digits 10 a c (String (LibC.digit_char d) s) = LibC.digits 10 (a * 10 + d) (c + 1) s.
Proof.
  intros H. simpl. rewrite (xdigit_digit_char d H).
  destruct (Z.ltb_spec d 10); [reflexivity | lia].
Qed.

Lemma digits_decimal_loop (fuel : nat) :
  forall (n : Z) (tail : string),
    0 <= n < 10 ^ Z.of_nat fuel ->
    exists k, 0 <= k /\ forall a c,
      LibC.digits 10 a c (LibC.decimal_loop fuel n tail)
      = LibC.digits 10 (a * 10 ^ k + n) (c + k) tail.
Proof.
  induction fuel as [|fuel IH]; intros n tail Hn.
  - exists 0. split; [lia|]. intros a c. simpl in *. f_equal; lia.
  - simpl LibC.decimal_loop.
    assert (Hmod : 0 <= n mod 10 < 10) by (apply Z.mod_pos_bound; lia).
    destruct (Z.ltb_spec n 10) as [Hlt|Hge].
    + exists 1. split; [lia|]. intros a c. rewrite (digits_step _ _ _ _ Hmod).
      rewrite Z.mod_small by lia. f_equal; lia.
    + destruct (IH (n / 10) (String (LibC.digit_char (n mod 10)) tail))
        as (k & Hk0 & Hk).
      { split; [apply Z.div_pos; lia|].
        apply Z.div_lt_upper_bound; [lia|].
        rewrite Nat2Z.inj_succ, Z.pow_succ_r in Hn by lia. lia. }
      exists (k + 1). split; [lia|]. intros a c.
      rewrite Hk, (digits_step _ _ _ _ Hmod).
      rewrite Z.pow_add_r by lia.
      pose proof (Z.div_mod n 10 ltac:(lia)) as Hdm.
      f_equal; lia.
Qed.

Lemma decimal_fuel (n : Z) : 0 <= n -> n < 10 ^ Z.of_nat (S (Z.to_nat (Z.log2 n))).
Proof.
  intros Hn. rewrite Nat2Z.inj_succ, Z2Nat.id by apply Z.log2_nonneg.
  destruct (Z.eq_dec n 0) as [->|Hne]; [reflexivity|].
  pose proof (Z.log2_spec n ltac:(lia)) as [_ Hlt].
  eapply Z.lt_le_trans; [exact Hlt|].
  apply Z.pow_le_mono_l. lia.
Qed.

Lemma decimal_loop_app (fuel : nat) :
  forall (n : Z) (acc rest : string),
    (LibC.decimal_loop fuel n acc ++ rest)%string = LibC.decimal_loop fuel n (acc ++ rest).
Proof.
  induction fuel as [|fuel IH]; intros n acc rest; simpl; [reflexivity|].
  destruct (n <? 10); [reflexivity|]. rewrite IH. reflexivity.
Qed.

Lemma decimal_loop_head (fuel : nat) :
  forall (n : Z) (acc : string),
    exists d t, 0 <= d < 10 /\ LibC.decimal_loop (S fuel) n acc = String (LibC.digit_char d) t.
Proof.
  induction fuel as [|fuel IH]; intros n acc.
  - exists (n mod 10), acc. split; [apply Z.mod_pos_bound; lia|].
    simpl. destruct (n <? 10); reflexivity.
  - change (LibC.decimal_loop (S (S fuel)) n acc)
      with (let acc' := String (LibC.digit_char (n mod 10)) acc in
            if n <? 10 then acc' else LibC.decimal_loop (S fuel) (n / 10) acc').
    cbv zeta. destruct (n <? 10).
    + exists (n mod 10), acc. split; [apply Z.mod_pos_bound; lia|reflexivity].
    + apply IH.
Qed.

Lemma digits_stops (a c : Z) (rest : string) :
  stops rest = true -> LibC.digits 10 a c rest = (a, c, rest).
Proof.
  destruct rest as [|ch rest]; [reflexivity|]. simpl. intros H.
  apply negb_true_iff in H. unfold LibC.xdigit. rewrite H.
  destruct ((97 <=? LibC.code (LibC.tolower ch)) && (LibC.code (LibC.tolower ch) <=? 102)) eqn:E;
    [|reflexivity].
  apply andb_true_iff in E. destruct E as [E1 E2].
  apply Z.leb_le in E1.
  destruct (Z.ltb_spec (LibC.code (LibC.tolower ch) - 87) 10); [lia|reflexivity].
Qed.

Lemma digits_decimal (n : Z) (rest : string) :
  0 <= n -> stops rest = true ->
  exists k, LibC.digits 10 0 0 (LibC.decimal n ++ rest) = (n, k, rest).
Proof.
  intros Hn Hrest. unfold LibC.decimal. rewrite decimal_loop_app. simpl append.
  destruct (digits_decimal_loop (S (Z.to_nat (Z.log2 n))) n rest
              (conj Hn (decimal_fuel n Hn))) as (k & Hk0 & Hk).
  exists k. rewrite Hk, (digits_stops _ _ _ Hrest). reflexivity.
Qed.

Lemma decimal_head (n : Z) (rest : string) :
  exists d t, 0 <= d < 10 /\ (LibC.decimal n ++ rest)%string = String (LibC.digit_char d) t.
Proof.
  unfold LibC.decimal. rewrite decimal_loop_app. apply decimal_loop_head.
Qed.

(** [atoll] reads back [to_string(i)], whatever follows the digits. *)
Lemma atoll_to_string (i : Z) (rest : string) :
  LLONG_MIN <= i <= LLONG_MAX -> stops rest = true ->
  LibC.atoll (LibC.to_string i ++ rest) = i.
Proof.
  intros Hi Hrest. unfold LibC.to_string, LibC.atoll.
  destruct (Z.ltb_spec i 0) as [Hneg|Hpos].
  - simpl append. simpl LibC.skip_spaces.
    change (LibC.sign (String "-" (LibC.decimal (- i) ++ rest)))
      with (true, (LibC.decimal (- i) ++ rest)%string).
    destruct (digits_decimal (- i) rest ltac:(lia) Hrest) as [k Hk].
    rewrite Hk. unfold LibC.clamp_long_long, LLONG_MIN, LLONG_MAX in *. lia.
  - destruct (decimal_head i rest) as (d & t & Hd & Hhead).
    destruct (digits_decimal i rest Hpos Hrest) as [k Hk].
    assert (Hskip : LibC.skip_spaces (LibC.decimal i ++ rest) = (LibC.decimal i ++ rest)%string).
    { rewrite Hhead. simpl. rewrite (proj1 (digit_char_plain d Hd)). reflexivity. }
    assert (Hsign : LibC.sign (LibC.decimal i ++ rest) = (false, (LibC.decimal i ++ rest)%string)).
    { rewrite Hhead. each_digit d Hd; reflexivity. }
    rewrite Hskip, Hsign, Hk.
    unfold LibC.clamp_long_long, LLONG_MIN, LLONG_MAX in *. lia.
Qed.

(** The characters after a NUL play no part in [atoll]. *)
Lemma up_to_nul_Some (s t : string) :
  up_to_nul s = Some t -> exists s', s = (t ++ String zero s')%string.
Proof.
  revert t. induction s as [|c s IH]; intros t H; [discriminate|].
  simpl in H. destruct (Ascii.eqb_spec c zero) as [->|Hc].
  - injection H as <-. exists s. reflexivity.
  - destruct (up_to_nul s) as [t'|]; [|discriminate].
    injection H as <-. destruct (IH t' eq_refl) as [s' ->].
    exists s'. reflexivity.
Qed.

Lemma skip_spaces_nul (p s' : string) :
  LibC.skip_spaces (p ++ String zero s') = (LibC.skip_spaces p ++ String zero s')%string.
Proof.
  induction p as [|c p IH]; [reflexivity|].
  simpl. destruct (LibC.isspace c); [exact IH|reflexivity].
Qed.

Lemma sign_nul (p s' : string) :
  LibC.sign (p ++ String zero s')
  = (fst (LibC.sign p), (snd (LibC.sign p) ++ String zero s')%string).
Proof.
  destruct p as [|c p]; [reflexivity|].
  destruct c as [[] [] [] [] [] [] [] []]; reflexivity.
Qed.

Lemma digits_nul (p s' : string) :
  forall a c, fst (fst (LibC.digits 10 a c (p ++ String zero s')))
              = fst (fst (LibC.digits 10 a c p)).
Proof.
  induction p as [|ch p IH]; intros a c; [reflexivity|].
  simpl. destruct (LibC.xdigit ch) as [d|]; [|reflexivity].
  destruct (d <? 10); [apply IH|reflexivity].
Qed.

Lemma atoll_value (s : string) :
  LibC.atoll s
  = LibC.clamp_long_long
      (let v := fst (fst (LibC.digits 10 0 0 (snd (LibC.sign (LibC.skip_spaces s))))) in
       if fst (LibC.sign (LibC.skip_spaces s)) then - v else v).
Proof.
  unfold LibC.atoll. destruct (LibC.sign (LibC.skip_spaces s)) as [neg s1].
  simpl. destruct (LibC.digits 10 0 0 s1) as [[v n] r]. reflexivity.
Qed.

Lemma atoll_c_str (s : string) : LibC.atoll (c_str s) = LibC.atoll s.
Proof.
  unfold c_str. destruct (up_to_nul s) as [t|] eqn:E; [|reflexivity].
  destruct (up_to_nul_Some _ _ E) as [s' ->].
  rewrite !atoll_value, skip_spaces_nul, sign_nul. simpl fst. simpl snd.
  rewrite digits_nul. reflexivity.
Qed.

Lemma atoll_no_digits (s : string) : no_digits s = true -> LibC.atoll s = 0.
Proof.
  unfold no_digits. intros H. rewrite atoll_value, (digits_stops _ _ _ H). simpl.
  destruct (fst (LibC.sign (LibC.skip_spaces s))); reflexivity.
Qed.

Lemma getInt_string (m : Memory) (s : string) :
  Variant.getInt m (Variant.of_string s) = Return (LibC.atoll (c_str s)).
Proof. reflexivity. Qed.

Lemma getFloat_string (m : Memory) (s : string) :
  Variant.getFloat m (Variant.of_string s) = Return (LibC.atof (c_str s)).
Proof. reflexivity. Qed.

Lemma strtod_no_float (s : string) : no_float s = true -> LibC.strtod s = double_zero.
Proof.
  unfold no_float, LibC.strtod.
  destruct (LibC.sign (LibC.skip_spaces s)) as [neg s1]. cbn [snd].
  destruct s1 as [|c rest]; [reflexivity|].
  destruct c as [[] [] [] [] [] [] [] []]; intros H; try discriminate H; reflexivity.
Qed.

Lemma no_float_c_str (s : string) : no_float s = true -> no_float (c_str s) = true.
Proof.
  unfold c_str. destruct (up_to_nul s) as [t|] eqn:E; [|auto].
  destruct (up_to_nul_Some _ _ E) as [s' ->].
  unfold no_float. rewrite skip_spaces_nul, sign_nul. cbn [snd].
  destruct (snd (LibC.sign (LibC.skip_spaces t))) as [|c r]; [reflexivity|].
  simpl. auto.
Qed.

(** Where the coercions are defined, and what they give on Strings: the
    decimal text of [i] followed by anything that is not a digit reads back
    as [i], text that offers no number gives 0 and [0.0], and so do the
    discriminants that hold no number. *)
Lemma coercions_defined :
  (forall (m : Memory) (x : Variant.t),
      Variant.valid x = true ->
      (Variant.type x = Variant.STRING_VIEW ->
       returns (view <- Variant.get_view x ;; c_str_at m view)) ->
      (Variant.type x = Variant.FLOAT ->
       returns (f <- Variant.get_f x ;; to_long_long f)) ->
      returns (Variant.getInt m x) /\ returns (Variant.getFloat m x))
  /\ (forall (m : Memory) (i : Z) (rest : string),
         LLONG_MIN <= i <= LLONG_MAX -> stops rest = true ->
         Variant.getInt m (Variant.of_string (LibC.to_string i ++ rest)) = Return i)
  /\ (forall (m : Memory) (s : string),
         no_digits s = true -> Variant.getInt m (Variant.of_string s) = Return 0)
  /\ (forall (m : Memory) (s : string),
         no_float s = true ->
         Variant.getFloat m (Variant.of_string s) = Return (S754_zero false))
  /\ (forall (m : Memory) (ty : Variant.Type_) (un : Variant.union Variant.t),
         no_number ty = true ->
         Variant.getInt m (Variant.mk ty un) = Return 0
         /\ Variant.getFloat m (Variant.mk ty un) = Return (S754_zero false)).
Proof.
  split; [|split; [|split; [|split]]].
  - intros m x Hv Hs Hf. split; [apply getInt_returns|apply getFloat_returns]; assumption.
  - intros m i rest Hi Hrest.
    rewrite getInt_string, atoll_c_str, atoll_to_string by assumption.
    reflexivity.
  - intros m s Hs.
    rewrite getInt_string, atoll_c_str, atoll_no_digits by assumption.
    reflexivity.
  - intros m s Hs. rewrite getFloat_string. unfold LibC.atof.
    rewrite (strtod_no_float _ (no_float_c_str s Hs)). reflexivity.
  - intros m ty un Hty. destruct ty; try discriminate; split; reflexivity.
Qed.

(** C7. [getInt] and [getFloat] are to be total and to read the leading
    number of a text. On a String they do: [getInt] is 42 on ["42abc"] and
    0 on ["abc"], [getFloat] is [0.0] on [""], 3.5 on ["3.5xyz"] and 100 on
    ["1e2"]. On a StringView they call [atoll(view)] and [atof(view)], which
    read the C string at the address and never the length, where
    [getString] takes [string(view, len)]: the view of the one character
    ["1"] of the text ["12"] gives 12 and not 1, and a view whose
    characters are followed by no NUL is read past its end. [getInt] on a
    Float is a cast, which is undefined for 1e19, a NaN or an infinity. *)
Theorem coercions_read_past_view :
  let m := {| base := 4096; bytes := String "1" (String "2" (String zero "")) |} in
  let m' := {| base := 4096; bytes := "42" |} in
  let one := Variant.of_view 4096 1 in
  let all := Variant.of_view 4096 2 in
  let huge := Variant.of_double (S754_finite false 4882812500000000 11) in
  (Variant.valid one = true
   /\ Variant.getString m one = Return "1"
   /\ Variant.getInt m one = Return 12
   /\ Variant.getInt m (Variant.of_string "1") = Return 1
   /\ Variant.getFloat m one = Return (S754_finite false 6755399441055744 (-49))
   /\ Variant.getFloat m (Variant.of_string "1")
      = Return (S754_finite false 4503599627370496 (-52)))
  /\ (Variant.valid all = true
      /\ Variant.getString m' all = Return "42"
      /\ Variant.getInt m' all = Undefined
      /\ Variant.getFloat m' all = Undefined)
  /\ (Variant.valid huge = true
      /\ huge = Variant.of_double (LibC.strtod "1e19")
      /\ Variant.getInt m huge = Undefined
      /\ Variant.valid (Variant.of_double S754_nan) = true
      /\ Variant.getInt m (Variant.of_double S754_nan) = Undefined
      /\ Variant.getInt m (Variant.of_double (S754_infinity false)) = Undefined)
  /\ (Variant.getInt m (Variant.of_string "42abc") = Return 42
      /\ Variant.getInt m (Variant.of_string "abc") = Return 0
      /\ Variant.getFloat m (Variant.of_string "") = Return (S754_zero false)
      /\ Variant.getFloat m (Variant.of_string "3.5xyz")
         = Return (S754_finite false 7881299347898368 (-51))
      /\ Variant.getFloat m (Variant.of_string "1e2")
         = Return (S754_finite false 7036874417766400 (-46))).
Proof.
  intros m m' one all huge.
  split; [repeat (split; [reflexivity|]); reflexivity|].
  split; [repeat (split; [reflexivity|]); reflexivity|].
  split; [repeat (split; [reflexivity|]); reflexivity|].
  repeat (split; [reflexivity|]); reflexivity.
Qed.

(** ** Strings as character buffers *)

Lemma append_assoc (a b c : string) : ((a ++ b) ++ c)%string = (a ++ (b ++ c))%string.
Proof. induction a as [|x a IH]; simpl; [reflexivity|]. rewrite IH. reflexivity. Qed.

Lemma append_empty_r (a : string) : (a ++ "")%string = a.
Proof. induction a as [|x a IH]; simpl; [reflexivity|]. rewrite IH. reflexivity. Qed.

Lemma length_append (a b : string) :
  String.length (a ++ b) = (String.length a + String.length b)%nat.
Proof. induction a as [|x a IH]; simpl; [reflexivity|]. rewrite IH. reflexivity. Qed.

Lemma get_append (pre post : string) (c : ascii) :
  String.get (String.length pre) (pre ++ String c post) = Some c.
Proof. induction pre as [|x pre IH]; simpl; [reflexivity|exact IH]. Qed.

Lemma at_append (pre post : string) (c : ascii) :
  Variant.at_ (pre ++ String c post) (Z.of_nat (String.length pre)) = Return c.
Proof.
  unfold Variant.at_. destruct (Z.ltb_spec (Z.of_nat (String.length pre)) 0); [lia|].
  rewrite Nat2Z.id, get_append. reflexivity.
Qed.

Lemma take_append (a b : string) : take (String.length a) (a ++ b) = a.
Proof. induction a as [|x a IH]; simpl; [destruct b; reflexivity|]. rewrite IH. reflexivity. Qed.

Lemma take_all (n : nat) (s : string) : (String.length s <= n)%nat -> take n s = s.
Proof.
  revert n. induction s as [|x s IH]; intros n H; [destruct n; reflexivity|].
  destruct n as [|n]; simpl in *; [lia|]. rewrite IH by lia. reflexivity.
Qed.

Lemma zeros_snoc (k : nat) : zeros (S k) = (zeros k ++ "0")%string.
Proof. induction k as [|k IH]; [reflexivity|]. simpl in *. rewrite <- IH. reflexivity. Qed.

(** ** The two loops of [getString] *)

Lemma length_zeros (k : nat) : String.length (zeros k) = k.
Proof. induction k as [|k IH]; simpl; congruence. Qed.

Ltac ltb_true :=
  match goal with
  | |- context [Z.ltb ?a ?b] =>
      replace (Z.ltb a b) with true by (symmetry; apply Z.ltb_lt; simpl in *; lia)
  end.

Lemma scan_point_spec (text : string) :
  forall (pre tail : string) (fuel : nat),
    (String.length text < fuel)%nat ->
    Variant.scan_point fuel (pre ++ text ++ tail)
      (Z.of_nat (String.length pre + String.length text)) (Z.of_nat (String.length pre))
    = Return (Z.of_nat (String.length pre + String.length (fst (split_point text)))).
Proof.
  induction text as [|c text IH]; intros pre tail fuel Hfuel;
    (destruct fuel as [|fuel]; [simpl in Hfuel; lia|]); simpl Variant.scan_point.
  - simpl String.length. rewrite Nat.add_0_r, Z.ltb_irrefl. reflexivity.
  - ltb_true. simpl append. simpl and_then. rewrite at_append. simpl bind.
    simpl split_point.
    destruct (Ascii.eqb c ".") eqn:Ec; simpl.
    + rewrite Nat.add_0_r. reflexivity.
    + destruct (split_point text) as [ip frac] eqn:Es. simpl.
      specialize (IH (pre ++ String c "")%string tail fuel ltac:(simpl in Hfuel; lia)).
      rewrite append_assoc in IH. simpl append in IH.
      rewrite length_append in IH. simpl String.length in IH.
      replace (Z.of_nat (String.length pre) + 1)
        with (Z.of_nat (String.length pre + 1)) by lia.
      replace (String.length pre + S (String.length text))%nat
        with (String.length pre + 1 + String.length text)%nat by lia.
      rewrite IH. f_equal. lia.
Qed.

Lemma trim_zeros_spec (k : nat) :
  forall (head tail : string) (c : ascii) (fuel : nat) (length i : Z),
    (k < fuel)%nat -> Ascii.eqb c "0" = false ->
    i < length -> i <= Z.of_nat (String.length head) ->
    Variant.trim_zeros fuel ((head ++ String c (zeros k)) ++ tail) length i
      (Z.of_nat (String.length head + 1 + k))
    = Return (Z.of_nat (String.length head + 1)).
Proof.
  induction k as [|k IH]; intros head tail c fuel len i Hfuel Hc Hi Hhead;
    (destruct fuel as [|fuel]; [lia|]).
  - simpl Variant.trim_zeros. ltb_true. ltb_true. simpl and_then.
    replace (Z.of_nat (String.length head + 1 + 0) - 1)
      with (Z.of_nat (String.length head)) by lia.
    rewrite append_assoc. simpl append. rewrite at_append. simpl. rewrite Hc.
    f_equal. lia.
  - assert (Hbuf : ((head ++ String c (zeros (S k))) ++ tail)%string
                   = ((head ++ String c (zeros k)) ++ String "0" tail)%string).
    { rewrite zeros_snoc, !append_assoc. simpl. rewrite append_assoc. reflexivity. }
    rewrite Hbuf.
    assert (Hlen : Z.of_nat (String.length (head ++ String c (zeros k)))
                   = Z.of_nat (String.length head + 1 + k)).
    { rewrite length_append. simpl. rewrite length_zeros. lia. }
    simpl Variant.trim_zeros. ltb_true. ltb_true. simpl and_then.
    replace (Z.of_nat (String.length head + 1 + S k) - 1)
      with (Z.of_nat (String.length (head ++ String c (zeros k)))) by lia.
    rewrite at_append. simpl bind. rewrite Hlen.
    apply IH; try assumption; lia.
Qed.

(** ** What the trimmed text is made of *)

Lemma split_point_text (text : string) :
  text = match snd (split_point text) with
         | None => fst (split_point text)
         | Some frac => (fst (split_point text) ++ String "." frac)%string
         end.
Proof.
  induction text as [|c text IH]; [reflexivity|]. simpl.
  destruct (Ascii.eqb_spec c ".") as [->|Hc]; [reflexivity|].
  destruct (split_point text) as [ip [frac|]]; simpl in *; congruence.
Qed.

Lemma trim_trailing_zeros_text (s : string) :
  exists k, s = (trim_trailing_zeros s ++ zeros k)%string.
Proof.
  induction s as [|c s [k IH]]; [exists O; reflexivity|]. simpl.
  destruct (trim_trailing_zeros s) as [|x r] eqn:E; simpl in *.
  - destruct (Ascii.eqb_spec c "0") as [->|Hc].
    + exists (S k). simpl. congruence.
    + exists k. simpl. congruence.
  - exists k. simpl. congruence.
Qed.

Lemma trim_trailing_zeros_last (s : string) :
  trim_trailing_zeros s = EmptyString
  \/ exists h c, trim_trailing_zeros s = (h ++ String c "")%string /\ Ascii.eqb c "0" = false.
Proof.
  induction s as [|x s IH]; [left; reflexivity|]. simpl.
  destruct IH as [E|(h & c & E & Hc)]; rewrite E.
  - simpl. destruct (Ascii.eqb x "0") eqn:Ex; [left; reflexivity|].
    right. exists EmptyString, x. split; [reflexivity|assumption].
  - right. destruct (h ++ String c "")%string eqn:Eh.
    + destruct h; discriminate.
    + simpl. exists (String x h), c. split; [simpl; congruence|assumption].
Qed.

Lemma string_of_buffer_append (a b : string) :
  Variant.string_of_buffer (a ++ b) (Z.of_nat (String.length a)) = Return a.
Proof.
  unfold Variant.string_of_buffer. rewrite length_append, Nat2Z.id, take_append.
  destruct (Z.leb_spec 0 (Z.of_nat (String.length a))); [|lia].
  destruct (Z.leb_spec (Z.of_nat (String.length a))
              (Z.of_nat (String.length a + String.length b))); [reflexivity|lia].
Qed.

(** The loops and the final [string(buffer, ...)] on a rendering [text]
    that fits the buffer. *)
Lemma getString_loops (text : string) :
  (i <- Variant.scan_point (S (String.length text)) (text ++ String zero "")
          (Z.of_nat (String.length text)) 0 ;;
   j <- Variant.trim_zeros (S (String.length text)) (text ++ String zero "")
          (Z.of_nat (String.length text)) i (Z.of_nat (String.length text)) ;;
   Variant.string_of_buffer (text ++ String zero "") (if j =? i + 1 then i else j))
  = Return (trimmed text).
Proof.
  assert (Hscan : Variant.scan_point (S (String.length text)) (text ++ String zero "")
                    (Z.of_nat (String.length text)) 0
                  = Return (Z.of_nat (String.length (fst (split_point text)))))
    by exact (scan_point_spec text "" (String zero "") (S (String.length text))
                (Nat.lt_succ_diag_r _)).
  rewrite Hscan. cbn [bind]. clear Hscan.
  pose proof (split_point_text text) as Htext.
  unfold trimmed. destruct (split_point text) as [ip [frac|]];
    cbn [fst snd] in Htext |- *.
  - (* a decimal point *)
    destruct (trim_trailing_zeros_text frac) as [k Hfrac].
    destruct (trim_trailing_zeros_last frac) as [E|(h & c & E & Hc)];
      rewrite E in Hfrac |- *.
    + cbn [append] in Hfrac. subst frac. subst text. cbn [is_empty].
      pose proof (trim_zeros_spec k ip (String zero "") "."
                    (S (String.length (ip ++ String "." (zeros k))))
                    (Z.of_nat (String.length (ip ++ String "." (zeros k))))
                    (Z.of_nat (String.length ip))) as Htrim.
      assert (Hlen : String.length (ip ++ String "." (zeros k))
                     = (String.length ip + 1 + k)%nat).
      { rewrite length_append. cbn [String.length]. rewrite length_zeros. lia. }
      rewrite Hlen in Htrim |- *.
      rewrite Htrim by (reflexivity || lia). cbn [bind].
      replace (Z.of_nat (String.length ip + 1) =? Z.of_nat (String.length ip) + 1) with true
        by (symmetry; apply Z.eqb_eq; lia).
      rewrite append_assoc. apply string_of_buffer_append.
    + subst frac. subst text.
      assert (Hshape : (ip ++ String "." ((h ++ String c "") ++ zeros k))%string
                       = ((ip ++ String "." h) ++ String c (zeros k))%string).
      { rewrite !append_assoc. reflexivity. }
      rewrite Hshape.
      pose proof (trim_zeros_spec k (ip ++ String "." h) (String zero "") c
                    (S (String.length ((ip ++ String "." h) ++ String c (zeros k))))
                    (Z.of_nat (String.length ((ip ++ String "." h) ++ String c (zeros k))))
                    (Z.of_nat (String.length ip))) as Htrim.
      assert (Hlen : String.length ((ip ++ String "." h) ++ String c (zeros k))
                     = (String.length (ip ++ String "." h) + 1 + k)%nat).
      { rewrite length_append. cbn [String.length]. rewrite length_zeros. lia. }
      rewrite Hlen in Htrim |- *.
      assert (Hip : (String.length ip < String.length (ip ++ String "." h))%nat).
      { rewrite length_append. cbn [String.length]. lia. }
      rewrite Htrim by (assumption || lia). cbn [bind].
      replace (Z.of_nat (String.length (ip ++ String "." h) + 1)
               =? Z.of_nat (String.length ip) + 1) with false
        by (symmetry; apply Z.eqb_neq; lia).
      assert (Hne : is_empty (h ++ String c "") = false) by (destruct h; reflexivity).
      rewrite Hne.
      assert (Hout : ((ip ++ String "." h) ++ String c (zeros k))%string
                     = ((ip ++ String "." (h ++ String c "")) ++ zeros k)%string).
      { rewrite !append_assoc. cbn [append]. rewrite !append_assoc. reflexivity. }
      rewrite Hout, append_assoc.
      replace (Z.of_nat (String.length (ip ++ String "." h) + 1))
        with (Z.of_nat (String.length (ip ++ String "." (h ++ String c "")))).
      2:{ rewrite !length_append. cbn [String.length]. rewrite length_append.
          cbn [String.length]. lia. }
      apply string_of_buffer_append.
  - (* no decimal point *)
    subst ip. cbn [Variant.trim_zeros]. rewrite Z.ltb_irrefl. cbn [and_then bind].
    replace (Z.of_nat (String.length text) =? Z.of_nat (String.length text) + 1) with false
      by (symmetry; apply Z.eqb_neq; lia).
    apply string_of_buffer_append.
Qed.

(** ** The rendering of a double fits the buffer *)

Lemma decimal_loop_length (fuel : nat) :
  forall (n : Z) (acc : string) (k : nat),
    0 <= n < 10 ^ Z.of_nat (S k) ->
    (String.length (LibC.decimal_loop fuel n acc) <= String.length acc + S k)%nat.
Proof.
  induction fuel as [|fuel IH]; intros n acc k Hn; simpl; [lia|].
  destruct (Z.ltb_spec n 10) as [Hlt|Hge]; simpl; [lia|].
  destruct k as [|k]; [simpl in Hn; lia|].
  specialize (IH (n / 10) (String (LibC.digit_char (n mod 10)) acc) k).
  simpl String.length in IH.
  assert (Hdiv : 0 <= n / 10 < 10 ^ Z.of_nat (S k)).
  { split; [apply Z.div_pos; lia|].
    apply Z.div_lt_upper_bound; [lia|].
    rewrite (Nat2Z.inj_succ (S k)), Z.pow_succ_r in Hn by lia. lia. }
  specialize (IH Hdiv). lia.
Qed.

Lemma decimal_length (n : Z) (k : nat) :
  0 <= n < 10 ^ Z.of_nat (S k) -> (String.length (LibC.decimal n) <= S k)%nat.
Proof. intros Hn. apply (decimal_loop_length _ n "" k Hn). Qed.

Lemma digits2_pos_bound (m : positive) : Zpos m < 2 ^ Zpos (digits2_pos m).
Proof.
  induction m as [m IH|m IH|]; simpl digits2_pos.
  - rewrite Pos2Z.inj_succ, Z.pow_succ_r by lia. lia.
  - rewrite Pos2Z.inj_succ, Z.pow_succ_r by lia. lia.
  - reflexivity.
Qed.

Lemma is_double_bounds (s : bool) (m : positive) (e : Z) :
  is_double (S754_finite s m e) = true -> Zpos m < 2 ^ 53 /\ -1074 <= e <= 971.
Proof.
  unfold is_double, valid_binary, bounded, canonical_mantissa, fexp, emin.
  intros H. apply andb_true_iff in H. destruct H as [Hc He].
  apply Z.leb_le in He. apply Z.eqb_eq in Hc.
  pose proof (digits2_pos_bound m) as Hm.
  assert (Hd : Zpos (digits2_pos m) <= 53) by lia.
  split; [|lia].
  eapply Z.lt_le_trans; [exact Hm|]. apply Z.pow_le_mono_r; lia.
Qed.

Lemma scaled_millionths_bound (m : positive) (e : Z) :
  Zpos m < 2 ^ 53 -> e <= 971 ->
  0 <= LibC.scaled_millionths m e / 10 ^ 6 < 10 ^ 309.
Proof.
  intros Hm He. unfold LibC.scaled_millionths.
  destruct (Z.leb_spec 0 e) as [Hpos|Hneg].
  - rewrite Z.div_mul by lia.
    assert (Hp : 0 < 2 ^ e) by (apply Z.pow_pos_nonneg; lia).
    assert (Hle : 2 ^ e <= 2 ^ 971) by (apply Z.pow_le_mono_r; lia).
    split; [lia|].
    apply Z.lt_le_trans with (2 ^ 53 * 2 ^ 971); [nia|].
    vm_compute. discriminate.
  - set (n := Zpos m * 10 ^ 6). set (d := 2 ^ (- e)).
    assert (Hd : 0 < d) by (apply Z.pow_pos_nonneg; lia).
    assert (Hn : 0 <= n) by (unfold n; lia).
    assert (Hq : 0 <= n / d <= n).
    { split; [apply Z.div_pos; lia|].
      apply Z.div_le_upper_bound; [lia|nia]. }
    assert (Hn' : n < 2 ^ 53 * 10 ^ 6) by (unfold n; lia).
    assert (Hr : 0 <= (if Z.even (n / d) then n / d else n / d + 1) <= n + 1)
      by (destruct (Z.even (n / d)); lia).
    destruct (2 * (n mod d) ?= d);
      (split; [apply Z.div_pos; lia|];
       apply Z.div_lt_upper_bound; [lia|];
       apply Z.le_lt_trans with (2 ^ 53 * 10 ^ 6); [lia|vm_compute; reflexivity]).
Qed.

Lemma length_six_digits (r : Z) : String.length (LibC.six_digits r) = 6%nat.
Proof. reflexivity. Qed.

Lemma format_f_length (f : double) :
  is_double f = true -> (String.length (LibC.format_f f) <= 317)%nat.
Proof.
  intros Hf. destruct f as [s|s| |s m e]; try (destruct s; simpl; lia).
  - simpl. lia.
  - destruct (is_double_bounds _ _ _ Hf) as [Hm He].
    pose proof (scaled_millionths_bound m e Hm ltac:(lia)) as Hq.
    pose proof (decimal_length (LibC.scaled_millionths m e / 10 ^ 6) 308 Hq) as Hlen.
    unfold LibC.format_f, LibC.minus.
    assert (Hbody : (String.length
                       (LibC.decimal (LibC.scaled_millionths m e / 10 ^ 6)
                        ++ String "." (LibC.six_digits (LibC.scaled_millionths m e mod 10 ^ 6)))
                     <= 316)%nat).
    { rewrite length_append. cbn [String.length]. rewrite length_six_digits. lia. }
    destruct s; cbn [String.length]; lia.
Qed.

Lemma getString_float (m : Memory) (f : double) :
  (String.length (LibC.format_f f) <= 511)%nat ->
  Variant.getString m (Variant.of_double f) = Return (trimmed (LibC.format_f f)).
Proof.
  intros Hlen. unfold Variant.getString, Variant.of_double. cbn [Variant.type Variant.get_f Variant.u bind].
  unfold LibC.snprintf_f. change (Z.to_nat (512 - 1)) with 511%nat.
  rewrite take_all by assumption. rewrite Nat2Z.id.
  apply getString_loops.
Qed.

(** C8. For every Float Variant [getString] is the ["%f"] rendering of the
    value without its trailing fractional zeros, and without the decimal
    point when no fractional digit is left; the doubles written [3.0],
    [3.14] and [3.100] give ["3"], ["3.14"] and ["3.1"]. *)
Theorem getString_float_trims :
  (forall (m : Memory) (f : double),
      is_double f = true ->
      Variant.getString m (Variant.of_double f) = Return (trimmed (LibC.format_f f)))
  /\ (forall m : Memory,
         Variant.getString m (Variant.of_double (LibC.strtod "3.0")) = Return "3"
         /\ Variant.getString m (Variant.of_double (LibC.strtod "3.14")) = Return "3.14"
         /\ Variant.getString m (Variant.of_double (LibC.strtod "3.100")) = Return "3.1").
Proof.
  split.
  - intros m f Hf. apply getString_float.
    pose proof (format_f_length f Hf). lia.
  - intros m. repeat split; vm_compute; reflexivity.
Qed.

Lemma getString_float_trims_witness :
  is_double (LibC.strtod "2.50") = true
  /\ Variant.getString {| base := 4096; bytes := "" |} (Variant.of_double (LibC.strtod "2.50"))
     = Return "2.5".
Proof.
  split; [reflexivity|].
  exact (proj1 getString_float_trims {| base := 4096; bytes := "" |} (LibC.strtod "2.50") eq_refl).
Defined.

(** ** Induction over nested variants and nodes *)

Lemma Variant_nested_ind (P : Variant.t -> Prop) :
  (forall ty un, (forall a, un <> Variant.a_ a) -> P (Variant.mk ty un)) ->
  (forall ty a, Forall P a -> P (Variant.mk ty (Variant.a_ a))) ->
  forall x, P x.
Proof.
  intros Hleaf Harray. fix IH 1. intros [ty un].
  destruct un; try (apply Hleaf; intros ? H; discriminate H).
  apply Harray. induction a as [|y l IHl]; constructor; [apply IH|exact IHl].
Qed.

Lemma Node_nested_ind (P : Node.t -> Prop) :
  (forall ty l c, P (Node.mk ty l c Node.raw)) ->
  (forall ty l c v, P (Node.mk ty l c (Node.variant v))) ->
  (forall ty l c cs, Forall P cs -> P (Node.mk ty l c (Node.children cs))) ->
  forall x, P x.
Proof.
  intros Hraw Hleaf Hbranch. fix IH 1. intros [ty l c un].
  destruct un as [|v|cs]; [apply Hraw|apply Hleaf|].
  apply Hbranch. induction cs as [|y cs IHcs]; constructor; [apply IH|exact IHcs].
Qed.

Lemma mapM_returns {A B : Type} (f : A -> outcome B) (l : list A) :
  Forall (fun x => returns (f x)) l -> returns (mapM f l).
Proof.
  induction 1 as [|x l [y Hy] _ [r Hr]]; simpl.
  - eexists; reflexivity.
  - rewrite Hy, Hr. simpl. eexists; reflexivity.
Qed.

Lemma forallb_Forall {A : Type} (f : A -> bool) (l : list A) :
  forallb f l = true <-> Forall (fun x => f x = true) l.
Proof.
  induction l as [|x l IH]; simpl; split; intros H; auto.
  - apply andb_true_iff in H. destruct H. constructor; [assumption|apply IH; assumption].
  - inversion H; subst. apply andb_true_iff. split; [assumption|apply IH; assumption].
Qed.

(** ** Copying variants *)

Lemma Variant_copy_returns (x : Variant.t) :
  Variant.valid x = true -> returns (Variant.copy x).
Proof.
  induction x as [ty un Hun|ty a IH] using Variant_nested_ind; intros Hv.
  - destruct ty, un; simpl in *; try discriminate; try (eexists; reflexivity).
    exfalso. exact (Hun a eq_refl).
  - destruct ty; simpl in Hv; try discriminate.
    simpl. apply forallb_Forall in Hv.
    destruct (mapM_returns Variant.copy a) as [a' Ha'].
    { rewrite Forall_forall in *. intros y Hy. apply (IH y Hy), (Hv y Hy). }
    rewrite Ha'. simpl. eexists; reflexivity.
Qed.

Lemma Variant_move_returns (x : Variant.t) :
  Variant.valid x = true ->
  exists v rest, Variant.move x = Return (v, rest)
                 /\ Variant.type v = Variant.type x
                 /\ (Variant.type x <> Variant.NIL -> Variant.u v = Variant.u x)
                 /\ Variant.type rest = Variant.type x
                 /\ exists rest', Variant.move v = Return (v, rest').
Proof.
  destruct x as [ty un]. intros Hv.
  destruct ty, un; simpl in Hv; try discriminate;
    (eexists; eexists; split; [reflexivity|];
     split; [reflexivity|]; split; [simpl; intros H; congruence|];
     split; [reflexivity|]; eexists; reflexivity).
Qed.

(** ** Copying and assigning nodes *)

Lemma Node_copy_returns (x : Node.t) :
  Node.valid x = true -> returns (Node.copy x).
Proof.
  induction x as [ty l c|ty l c v|ty l c cs IH] using Node_nested_ind;
    simpl; intros Hv.
  - rewrite andb_false_r in Hv. discriminate.
  - apply andb_true_iff in Hv. destruct Hv as [_ Hv].
    apply andb_true_iff in Hv. destruct Hv as [Hty Hv].
    apply negb_true_iff in Hty. rewrite Hty.
    destruct (Variant_copy_returns v Hv) as [v' Hv']. simpl. rewrite Hv'. simpl.
    eexists; reflexivity.
  - apply andb_true_iff in Hv. destruct Hv as [_ Hv].
    apply andb_true_iff in Hv. destruct Hv as [Hty Hv]. rewrite Hty.
    apply forallb_Forall in Hv.
    destruct (mapM_returns Node.copy cs) as [cs' Hcs'].
    { rewrite Forall_forall in *. intros y Hy. apply (IH y Hy), (Hv y Hy). }
    rewrite Hcs'. simpl. eexists; reflexivity.
Qed.

(** What a valid node holds. *)
Lemma Node_valid_cases (x : Node.t) :
  Node.valid x = true ->
  (nonzero (Node.type x) = false /\ exists v, Node.u x = Node.variant v /\ Variant.valid v = true)
  \/ (nonzero (Node.type x) = true
      /\ exists cs, Node.u x = Node.children cs /\ forallb Node.valid cs = true).
Proof.
  destruct x as [ty l c [|v|cs]]; simpl; intros Hv;
    apply andb_true_iff in Hv; destruct Hv as [_ Hv]; try discriminate;
    apply andb_true_iff in Hv; destruct Hv as [Hty Hv].
  - left. apply negb_true_iff in Hty. eauto.
  - right. eauto.
Qed.

Lemma Node_assign_returns (this n : Node.t) :
  Node.valid this = true -> Node.valid n = true -> returns (Node.assign this n).
Proof.
  intros Hthis Hn. unfold Node.assign.
  destruct (Node_valid_cases this Hthis) as [[Hty (v & Hu & Hv)]|[Hty (cs & Hu & Hcs)]];
    rewrite Hty; unfold Node.get_children; try rewrite Hu; simpl;
    (destruct (Node_valid_cases n Hn) as [[Hty' (v' & Hu' & Hv')]|[Hty' (cs' & Hu' & Hcs')]];
     rewrite Hty'; try rewrite Hu'; simpl; [eexists; reflexivity|]);
    apply forallb_Forall in Hcs';
    (destruct (mapM_returns Node.copy cs') as [r Hr];
     [rewrite Forall_forall in *; intros y Hy; apply Node_copy_returns, (Hcs' y Hy)|]);
    rewrite Hr; simpl; eexists; reflexivity.
Qed.

Lemma Node_assign_position (this n this' : Node.t) :
  Node.assign this n = Return this' ->
  Node.line this' = Node.line this /\ Node.column this' = Node.column this.
Proof.
  unfold Node.assign. intros H. outcome_inv. all: split; reflexivity.
Qed.

(** ** Move assignment through a reference *)

Lemma replace_returns (k : nat) (x : Node.t) :
  forall (c : list Node.t) (y : Node.t),
    nth_error c k = Some y ->
    exists c', Node.replace k x c = Return c' /\ nth_error c' k = Some x.
Proof.
  induction k as [|k IH]; intros [|z c] y H; simpl in *; try discriminate.
  - eexists; split; reflexivity.
  - destruct (IH c y H) as (c' & Hc' & Hn). rewrite Hc'. simpl.
    eexists; split; [reflexivity|exact Hn].
Qed.

(** Storing through a path that reaches a node succeeds, leaves the fields
    of the root alone, and is what the path then reaches. *)
Lemma store_returns (path : list nat) (x : Node.t) :
  forall node n : Node.t,
    Node.descend path node = Return n ->
    exists node',
      Node.store path x node = Return node'
      /\ Node.descend path node' = Return x
      /\ (path <> [] ->
          Node.type node' = Node.type node /\ Node.line node' = Node.line node
          /\ Node.column node' = Node.column node
          /\ exists c, Node.u node' = Node.children c).
Proof.
  induction path as [|k path IH]; intros node n H; simpl in *.
  - exists x. split; [reflexivity|]. split; [reflexivity|]. intros Hne. congruence.
  - destruct node as [ty l col [|v|c]]; simpl in *; try discriminate.
    destruct (nth_error c k) as [child|] eqn:Ek; [|discriminate].
    destruct (IH child n H) as (child' & Hs & Hd & _). rewrite Hs. simpl.
    destruct (replace_returns k child' c child Ek) as (c' & Hc' & Hn).
    rewrite Hc'. simpl. eexists. split; [reflexivity|]. simpl. rewrite Hn.
    split; [exact Hd|]. intros _. split; [reflexivity|]. split; [reflexivity|].
    split; [reflexivity|]. eexists; reflexivity.
Qed.

Lemma descend_valid (path : list nat) :
  forall node n : Node.t,
    Node.valid node = true -> Node.descend path node = Return n -> Node.valid n = true.
Proof.
  induction path as [|k path IH]; intros node n Hv H; simpl in H.
  - congruence.
  - destruct (Node_valid_cases node Hv) as [[_ (v & Hu & _)]|[_ (cs & Hu & Hcs)]];
      unfold Node.get_children in H; rewrite Hu in H; simpl in H; [discriminate|].
    destruct (nth_error cs k) as [child|] eqn:Ek; [|discriminate].
    apply (IH child n); [|exact H].
    apply forallb_Forall in Hcs. rewrite Forall_forall in Hcs.
    apply Hcs. eapply nth_error_In. exact Ek.
Qed.

Lemma write_position (r : Node.ref) (x : Node.t) (st st' : Node.state) :
  Node.write r x st = Return st' ->
  Node.line (Node.this_ st') = Node.line (Node.this_ st)
  /\ Node.column (Node.this_ st') = Node.column (Node.this_ st).
Proof.
  destruct r as [|k path]; simpl; intros H.
  - Return_inv H. split; reflexivity.
  - destruct (Node.get_children (Node.this_ st)) as [c| |]; simpl in H; try discriminate.
    destruct (nth_error c k); [|discriminate].
    outcome_inv. split; reflexivity.
Qed.

Lemma children_assign_move_position (stl : Node.vector_move_assignment) (r : Node.ref)
    (st st' : Node.state) :
  Node.children_assign_move stl r st = Return st' ->
  Node.line (Node.this_ st') = Node.line (Node.this_ st)
  /\ Node.column (Node.this_ st') = Node.column (Node.this_ st).
Proof.
  unfold Node.children_assign_move. intros H. destruct stl.
  - apply bind_Return in H. destruct H as (n & _ & H).
    apply bind_Return in H. destruct H as (c & _ & H).
    apply bind_Return in H. destruct H as (st1 & Hw & H).
    apply bind_Return in H. destruct H as (c1 & _ & H).
    Return_inv H. simpl. exact (write_position _ _ _ _ Hw).
  - apply bind_Return in H. destruct H as (c0 & _ & H).
    apply bind_Return in H. destruct H as (n & _ & H).
    apply bind_Return in H. destruct H as (c & _ & H).
    apply bind_Return in H. destruct H as (st2 & Hw & H).
    Return_inv H. simpl. exact (write_position _ _ _ _ Hw).
Qed.

Lemma assign_move_position (stl : Node.vector_move_assignment) (r : Node.ref)
    (st st' : Node.state) :
  Node.assign_move stl r st = Return st' ->
  Node.line (Node.this_ st') = Node.line (Node.this_ st)
  /\ Node.column (Node.this_ st') = Node.column (Node.this_ st).
Proof.
  unfold Node.assign_move. intros H.
  destruct (nonzero (Node.type (Node.this_ st))).
  - apply bind_Return in H. destruct H as (n & _ & H).
    destruct (negb (nonzero (Node.type n))).
    + apply bind_Return in H. destruct H as (nv & _ & H).
      apply bind_Return in H. destruct H as ([v rest] & _ & H).
      apply bind_Return in H. destruct H as (st1 & Hw & H).
      apply bind_Return in H. destruct H as (n1 & _ & H).
      apply bind_Return in H. destruct H as (c & _ & H).
      apply bind_Return in H. destruct H as ([v' rest'] & _ & H).
      Return_inv H. simpl. exact (write_position _ _ _ _ Hw).
    + exact (children_assign_move_position _ _ _ _ H).
  - apply bind_Return in H. destruct H as (st0 & H0 & H). Return_inv H0.
    apply bind_Return in H. destruct H as (n & _ & H).
    apply bind_Return in H. destruct H as (st2 & H2 & H).
    apply bind_Return in H. destruct H as (n2 & _ & H).
    Return_inv H. simpl.
    destruct (nonzero (Node.type n)).
    + exact (children_assign_move_position _ _ _ _ H2).
    + apply bind_Return in H2. destruct H2 as (nv & _ & H2).
      apply bind_Return in H2. destruct H2 as ([v rest] & _ & H2).
      apply bind_Return in H2. destruct H2 as (st1 & Hw & H2).
      Return_inv H2. simpl. exact (write_position _ _ _ _ Hw).
Qed.

Lemma Node_assign_move_returns (stl : Node.vector_move_assignment) (this n : Node.t) :
  Node.valid this = true -> Node.valid n = true ->
  returns (Node.assign_move stl Node.External {| Node.this_ := this; Node.other := n |}).
Proof.
  intros Hthis Hn. unfold Node.assign_move. cbn [Node.this_ Node.read Node.other bind].
  destruct (Node_valid_cases this Hthis) as [[Hty (v & Hu & Hv)]|[Hty (cs & Hu & Hcs)]];
    rewrite Hty;
    destruct (Node_valid_cases n Hn) as [[Hty' (v' & Hu' & Hv')]|[Hty' (cs' & Hu' & Hcs')]];
    cbn [bind Node.read Node.other Node.this_ Node.set_this]; rewrite Hty';
    cbn [negb];
    try (destruct (Variant_move_returns v' Hv')
           as (v1 & rest & Hm & _ & _ & _ & rest' & Hm'));
    unfold Node.get_variant, Node.children_assign_move, Node.get_children;
    try rewrite Hu'; cbn; try rewrite Hu; try rewrite Hu'; cbn;
    try rewrite Hm; cbn; try rewrite Hu; cbn; try rewrite Hm'; cbn;
    try (destruct stl; cbn; try rewrite Hu'; cbn; try rewrite Hu; cbn);
    eexists; reflexivity.
Qed.

Lemma Node_copy_position (n n' : Node.t) :
  Node.copy n = Return n' ->
  Node.line n' = Node.line n /\ Node.column n' = Node.column n.
Proof.
  destruct n as [ty l c un]. simpl. intros H.
  destruct (nonzero ty); destruct un; simpl in H; outcome_inv; split; reflexivity.
Qed.

Lemma Node_move_position (n n' rest : Node.t) :
  Node.move n = Return (n', rest) ->
  Node.line n' = Node.line n /\ Node.column n' = Node.column n.
Proof.
  destruct n as [ty l c un]. unfold Node.move. simpl. intros H.
  destruct (nonzero ty); destruct un; simpl in H; outcome_inv; split; reflexivity.
Qed.

(** C10. Copy assignment and move assignment leave the [line] and [column]
    of the destination as they were: both operators return for every pair
    of well-formed nodes, and whenever they return (also when the source of
    a move is a descendant of the destination) the two fields are
    unchanged. The copy and move constructors take both fields from the
    source. *)
Theorem assignment_keeps_position :
  (forall this n : Node.t,
      Node.valid this = true -> Node.valid n = true ->
      exists this', Node.assign this n = Return this'
                    /\ Node.line this' = Node.line this
                    /\ Node.column this' = Node.column this)
  /\ (forall (stl : Node.vector_move_assignment) (this n : Node.t),
         Node.valid this = true -> Node.valid n = true ->
         exists st', Node.assign_move stl Node.External
                       {| Node.this_ := this; Node.other := n |} = Return st'
                     /\ Node.line (Node.this_ st') = Node.line this
                     /\ Node.column (Node.this_ st') = Node.column this)
  /\ (forall (stl : Node.vector_move_assignment) (r : Node.ref) (st st' : Node.state),
         Node.assign_move stl r st = Return st' ->
         Node.line (Node.this_ st') = Node.line (Node.this_ st)
         /\ Node.column (Node.this_ st') = Node.column (Node.this_ st))
  /\ (forall n n' : Node.t,
         Node.copy n = Return n' ->
         Node.line n' = Node.line n /\ Node.column n' = Node.column n)
  /\ (forall n n' rest : Node.t,
         Node.move n = Return (n', rest) ->
         Node.line n' = Node.line n /\ Node.column n' = Node.column n).
Proof.
  split; [|split; [|split; [|split]]].
  - intros this n Hthis Hn.
    destruct (Node_assign_returns this n Hthis Hn) as [this' H].
    exists this'. split; [exact H|]. exact (Node_assign_position _ _ _ H).
  - intros stl this n Hthis Hn.
    destruct (Node_assign_move_returns stl this n Hthis Hn) as [st' H].
    exists st'. split; [exact H|]. exact (assign_move_position _ _ _ _ H).
  - exact assign_move_position.
  - exact Node_copy_position.
  - exact Node_move_position.
Qed.

Lemma assignment_keeps_position_witness :
  let this := Node.mk 0 3 4 (Node.variant (Variant.of_long_long 5)) in
  let n := Node.mk 64 7 8 (Node.children [Node.mk 0 9 1 (Node.variant (Variant.of_string "x"))]) in
  Node.valid this = true /\ Node.valid n = true
  /\ (exists this', Node.assign this n = Return this'
                    /\ Node.line this' = 3 /\ Node.column this' = 4)
  /\ (exists st', Node.assign_move Node.take_then_release Node.External
                    {| Node.this_ := n; Node.other := this |} = Return st'
                  /\ Node.line (Node.this_ st') = 7 /\ Node.column (Node.this_ st') = 8).
Proof.
  intros this n. split; [reflexivity|]. split; [reflexivity|]. split.
  - exact (proj1 assignment_keeps_position this n eq_refl eq_refl).
  - exact (proj1 (proj2 assignment_keeps_position) Node.take_then_release n this
             eq_refl eq_refl).
Defined.

(** ** Moving a descendant into its ancestor *)

Lemma nonzero_false (z : Z) : nonzero z = false -> z = 0.
Proof. unfold nonzero. intros H. apply negb_false_iff, Z.eqb_eq in H. exact H. Qed.

Ltac node_step :=
  cbn [bind Node.read Node.write Node.this_ Node.other Node.set_this Node.set_u
       Node.set_type Node.type Node.u Node.line Node.column Node.get_variant
       Node.get_children negb].

(** A path that reaches a node starts at a branch. *)
Lemma descend_branch (k : nat) (path : list nat) (this n : Node.t) :
  Node.valid this = true -> Node.descend (k :: path) this = Return n ->
  nonzero (Node.type this) = true /\ exists c, Node.u this = Node.children c.
Proof.
  intros Hv H.
  destruct (Node_valid_cases this Hv) as [[_ (v & Hu & _)]|[Hty (cs & Hu & _)]];
    simpl in H; unfold Node.get_children in H; rewrite Hu in H; [discriminate|].
  split; [exact Hty|]. exists cs. exact Hu.
Qed.

(** A leaf descendant: the variant is moved out before the children of the
    destination are destroyed, whatever the library does. *)
Lemma assign_move_leaf_descendant (stl : Node.vector_move_assignment)
    (this other n : Node.t) (k : nat) (path : list nat) (v : Variant.t) :
  Node.valid this = true ->
  Node.descend (k :: path) this = Return n ->
  Node.u n = Node.variant v ->
  exists v',
    Node.assign_move stl (Node.Descendant k path) {| Node.this_ := this; Node.other := other |}
    = Return {| Node.this_ := Node.mk nullptr (Node.line this) (Node.column this) (Node.variant v');
                Node.other := other |}
    /\ Variant.type v' = Variant.type v
    /\ (Variant.type v <> Variant.NIL -> Variant.u v' = Variant.u v).
Proof.
  intros Hthis Hdesc Hu.
  pose proof (descend_valid _ _ _ Hthis Hdesc) as Hn.
  destruct (Node_valid_cases n Hn) as [[Hty (v0 & Hu0 & Hv)]|[_ (cs & Hcs & _)]];
    [|congruence].
  assert (v0 = v) by congruence. subst v0.
  destruct (descend_branch _ _ _ _ Hthis Hdesc) as [Hbranch _].
  destruct (Variant_move_returns v Hv) as (v1 & rest & Hm & Ht & Hp & _ & rest' & Hm').
  destruct (store_returns (k :: path) (Node.set_u n (Node.variant rest)) this n Hdesc)
    as (this' & Hs & Hd & Hfields).
  destruct (Hfields ltac:(discriminate)) as (Hty' & Hline & Hcol & c' & Hc').
  exists v1. split; [|split; assumption].
  unfold Node.assign_move. node_step. rewrite Hbranch, Hdesc. node_step.
  rewrite Hty. node_step. unfold Node.get_variant at 1. rewrite Hu. node_step.
  rewrite Hm. node_step. rewrite Hs. node_step. rewrite Hd. node_step.
  unfold Node.get_children. node_step. rewrite Hc'. node_step.
  rewrite Hm'. node_step. unfold Node.set_this, Node.set_u, Node.set_type. node_step.
  rewrite Hline, Hcol, (nonzero_false _ Hty). reflexivity.
Qed.

(** A branch descendant, with a vector that takes the source's buffer
    before it destroys its own elements. *)
Lemma assign_move_branch_descendant (this other n : Node.t) (k : nat) (path : list nat)
    (cs : list Node.t) :
  Node.valid this = true ->
  Node.descend (k :: path) this = Return n ->
  Node.u n = Node.children cs ->
  Node.assign_move Node.take_then_release (Node.Descendant k path)
    {| Node.this_ := this; Node.other := other |}
  = Return {| Node.this_ := Node.mk (Node.type n) (Node.line this) (Node.column this)
                              (Node.children cs);
              Node.other := other |}.
Proof.
  intros Hthis Hdesc Hu.
  pose proof (descend_valid _ _ _ Hthis Hdesc) as Hn.
  destruct (Node_valid_cases n Hn) as [[_ (v0 & Hu0 & _)]|[Hty _]]; [congruence|].
  destruct (descend_branch _ _ _ _ Hthis Hdesc) as [Hbranch [c Hc]].
  assert (Hdesc' : Node.descend (k :: path) (Node.set_type this (Node.type n)) = Return n).
  { destruct this as [ty l col un]. exact Hdesc. }
  destruct (store_returns (k :: path) (Node.set_u n (Node.children []))
              (Node.set_type this (Node.type n)) n Hdesc')
    as (this' & Hs & _ & Hfields).
  destruct (Hfields ltac:(discriminate)) as (Hty' & Hline & Hcol & c' & Hc').
  unfold Node.assign_move. node_step. rewrite Hbranch, Hdesc. node_step.
  rewrite Hty. node_step.
  unfold Node.children_assign_move. node_step. rewrite Hdesc'. node_step.
  unfold Node.get_children. rewrite Hu. node_step. rewrite Hs. node_step.
  rewrite Hc'. node_step. unfold Node.set_this, Node.set_u, Node.set_type in *.
  node_step. cbn [Node.type Node.line Node.column] in Hty', Hline, Hcol.
  rewrite Hty', Hline, Hcol. reflexivity.
Qed.

(** A branch descendant, with a vector that destroys its own elements
    first: the source is gone when its buffer is to be taken. *)
Lemma assign_move_branch_descendant_freed (this other n : Node.t) (k : nat)
    (path : list nat) (cs : list Node.t) :
  Node.valid this = true ->
  Node.descend (k :: path) this = Return n ->
  Node.u n = Node.children cs ->
  Node.assign_move Node.release_then_take (Node.Descendant k path)
    {| Node.this_ := this; Node.other := other |}
  = Undefined.
Proof.
  intros Hthis Hdesc Hu.
  pose proof (descend_valid _ _ _ Hthis Hdesc) as Hn.
  destruct (Node_valid_cases n Hn) as [[_ (v0 & Hu0 & _)]|[Hty _]]; [congruence|].
  destruct (descend_branch _ _ _ _ Hthis Hdesc) as [Hbranch [c Hc]].
  unfold Node.assign_move. node_step. rewrite Hbranch, Hdesc. node_step.
  rewrite Hty. node_step.
  unfold Node.children_assign_move, Node.get_children. node_step. rewrite Hc. node_step.
  simpl. destruct k; reflexivity.
Qed.

(** C4. Move-assigning a descendant into its ancestor is to be safe. A leaf
    descendant is: its variant is extracted first. For a branch descendant
    the operator runs [children = move(n.children)] on the vector that owns
    the source: with a vector that destroys its elements before it takes
    the new buffer the source is freed and then read. Here [parent] holds
    the leaf 5 and a branch holding the leaf 5. *)
Theorem move_branch_child_into_parent :
  let leaf := Node.mk nullptr 3 4 (Node.variant (Variant.of_long_long 5)) in
  let child := Node.mk 200 2 2 (Node.children [leaf]) in
  let parent := Node.mk 100 1 1 (Node.children [leaf; child]) in
  let st := {| Node.this_ := parent; Node.other := Node.default |} in
  Node.valid parent = true
  /\ Node.assign_move Node.release_then_take (Node.Descendant 1 []) st = Undefined
  /\ Node.assign_move Node.take_then_release (Node.Descendant 1 []) st
     = Return {| Node.this_ := Node.mk 200 1 1 (Node.children [leaf]);
                 Node.other := Node.default |}
  /\ (forall stl,
         Node.assign_move stl (Node.Descendant 0 []) st
         = Return {| Node.this_ := Node.mk nullptr 1 1 (Node.variant (Variant.of_long_long 5));
                     Node.other := Node.default |}).
Proof.
  split; [reflexivity|]. split; [reflexivity|]. split; [reflexivity|].
  intros stl. reflexivity.
Qed.

(** ** Deep copies *)

Lemma mapM_map {A B : Type} (f : A -> outcome B) (g : A -> B) (l : list A) :
  Forall (fun x => f x = Return (g x)) l -> mapM f l = Return (map g l).
Proof.
  induction 1 as [|x l Hx _ IH]; simpl; [reflexivity|].
  rewrite Hx, IH. reflexivity.
Qed.

Lemma Variant_copy_value (x : Variant.t) :
  Variant.valid x = true -> Variant.copy x = Return (value_of x).
Proof.
  induction x as [ty un Hun|ty a IH] using Variant_nested_ind; intros Hv.
  - destruct ty, un; simpl in *; try discriminate; try reflexivity.
    exfalso. exact (Hun a eq_refl).
  - destruct ty; simpl in Hv; try discriminate.
    simpl. apply forallb_Forall in Hv.
    rewrite (mapM_map Variant.copy value_of a); [reflexivity|].
    rewrite Forall_forall in *. intros y Hy. apply (IH y Hy), (Hv y Hy).
Qed.


(** The copy constructor clones the whole tree. *)
Lemma Node_copy_tree (x : Node.t) :
  Node.valid x = true -> Node.copy x = Return (tree_of x).
Proof.
  induction x as [ty l c|ty l c v|ty l c cs IH] using Node_nested_ind;
    simpl; intros Hv.
  - rewrite andb_false_r in Hv. discriminate.
  - apply andb_true_iff in Hv. destruct Hv as [_ Hv].
    apply andb_true_iff in Hv. destruct Hv as [Hty Hv].
    apply negb_true_iff in Hty. rewrite Hty. simpl.
    rewrite (Variant_copy_value v Hv). reflexivity.
  - apply andb_true_iff in Hv. destruct Hv as [_ Hv].
    apply andb_true_iff in Hv. destruct Hv as [Hty Hv]. rewrite Hty.
    apply forallb_Forall in Hv.
    rewrite (mapM_map Node.copy tree_of cs); [reflexivity|].
    rewrite Forall_forall in *. intros y Hy. apply (IH y Hy), (Hv y Hy).
Qed.

(** Copy assignment from a branch clones its children as the copy
    constructor does. *)
Lemma Node_assign_branch (this n : Node.t) (cs : list Node.t) :
  Node.valid this = true -> Node.valid n = true -> Node.u n = Node.children cs ->
  Node.assign this n
  = Return (Node.mk (Node.type n) (Node.line this) (Node.column this)
              (Node.children (map tree_of cs))).
Proof.
  intros Hthis Hn Hu. unfold Node.assign.
  destruct (Node_valid_cases n Hn) as [[_ (v' & Hu' & _)]|[Hty' (cs' & Hu' & Hcs')]];
    [congruence|].
  assert (cs' = cs) by congruence. subst cs'.
  apply forallb_Forall in Hcs'.
  assert (Hcopy : mapM Node.copy cs = Return (map tree_of cs)).
  { apply mapM_map. rewrite Forall_forall in *. intros y Hy.
    apply Node_copy_tree, (Hcs' y Hy). }
  destruct (Node_valid_cases this Hthis) as [[Hty (v & Hv & _)]|[Hty (c & Hc & _)]];
    rewrite Hty, Hty'; unfold Node.get_children; rewrite Hu; try rewrite Hc;
    cbn [bind]; rewrite Hcopy; reflexivity.
Qed.

(** Copy assignment from a leaf default-constructs the variant of the
    destination: the variant of the source is not read. *)
Lemma Node_assign_leaf (this n : Node.t) :
  Node.valid this = true -> nonzero (Node.type n) = false ->
  Node.assign this n
  = Return (Node.mk (Node.type n) (Node.line this) (Node.column this)
              (Node.variant Variant.default)).
Proof.
  intros Hthis Hty'. unfold Node.assign.
  destruct (Node_valid_cases this Hthis) as [[Hty (v & Hv & _)]|[Hty (c & Hc & _)]];
    rewrite Hty, Hty'; unfold Node.get_children; try rewrite Hc; reflexivity.
Qed.

(** C3. A copy of a node is to be deep, and the copy of a leaf is to hold a
    copy of the source's Variant. The copy constructor does both. Copy
    assignment from a leaf constructs [Variant()] in the destination
    instead of copying [n.variant]: assigning the leaf 5 leaves a Nil leaf,
    where the copy constructor and move assignment give the leaf 5. *)
Theorem copy_assign_leaf_is_nil :
  let n := Node.mk nullptr 3 4 (Node.variant (Variant.of_long_long 5)) in
  Node.valid Node.default = true /\ Node.valid n = true
  /\ Node.copy n = Return n
  /\ Node.assign Node.default n
     = Return (Node.mk nullptr 0 0 (Node.variant (Variant.mk Variant.NIL Variant.raw)))
  /\ (forall stl,
         Node.assign_move stl Node.External {| Node.this_ := Node.default; Node.other := n |}
         = Return {| Node.this_ := Node.mk nullptr 0 0 (Node.variant (Variant.of_long_long 5));
                     Node.other := n |}).
Proof.
  split; [reflexivity|]. split; [reflexivity|]. split; [reflexivity|].
  split; [reflexivity|]. intros stl. reflexivity.
Qed.

(** ** The string form of a leaf *)

Lemma bind_no_assert {A B : Type} (c : outcome A) (k : A -> outcome B) :
  c <> AssertFail -> (forall a, k a <> AssertFail) -> bind c k <> AssertFail.
Proof. destruct c as [a| |]; simpl; intros Hc Hk; [apply Hk|congruence|discriminate]. Qed.

Lemma and_then_no_assert (c1 : bool) (c2 : outcome bool) :
  c2 <> AssertFail -> and_then c1 c2 <> AssertFail.
Proof. destruct c1; simpl; [auto|discriminate]. Qed.

Lemma at_no_assert (buffer : string) (k : Z) : Variant.at_ buffer k <> AssertFail.
Proof.
  unfold Variant.at_. destruct (k <? 0); [discriminate|].
  destruct (String.get (Z.to_nat k) buffer); discriminate.
Qed.

Lemma scan_point_no_assert (fuel : nat) :
  forall (buffer : string) (length i : Z),
    Variant.scan_point fuel buffer length i <> AssertFail.
Proof.
  induction fuel as [|fuel IH]; intros buffer len i; simpl; [discriminate|].
  apply bind_no_assert.
  - apply and_then_no_assert, bind_no_assert; [apply at_no_assert|discriminate].
  - intros [|]; [apply IH|discriminate].
Qed.

Lemma trim_zeros_no_assert (fuel : nat) :
  forall (buffer : string) (length i j : Z),
    Variant.trim_zeros fuel buffer length i j <> AssertFail.
Proof.
  induction fuel as [|fuel IH]; intros buffer len i j; simpl; [discriminate|].
  apply bind_no_assert.
  - apply and_then_no_assert, and_then_no_assert, bind_no_assert;
      [apply at_no_assert|discriminate].
  - intros [|]; [apply IH|discriminate].
Qed.

Lemma string_of_view_no_assert (m : Memory) (view len : Z) :
  string_of_view m view len <> AssertFail.
Proof.
  unfold string_of_view, chars_at.
  destruct ((1 <=? base m) && (base m <=? view)
            && (view <=? base m + Z.of_nat (String.length (bytes m)))); simpl;
    [|discriminate].
  match goal with |- (if ?c then _ else _) <> _ => destruct c end; discriminate.
Qed.

Lemma Variant_getString_no_assert (m : Memory) (v : Variant.t) :
  Variant.getString m v <> AssertFail.
Proof.
  destruct v as [ty un]. unfold Variant.getString. cbn [Variant.type].
  destruct ty; try discriminate;
    unfold Variant.get_b, Variant.get_f, Variant.get_i, Variant.get_s,
      Variant.get_view, Variant.get_len;
    cbn [Variant.u]; destruct un; cbn [bind]; try discriminate.
  - unfold LibC.snprintf_f. cbv beta iota.
    apply bind_no_assert; [apply scan_point_no_assert|]. intros i.
    apply bind_no_assert; [apply trim_zeros_no_assert|]. intros j.
    unfold Variant.string_of_buffer.
    match goal with |- (if ?c then _ else _) <> _ => destruct c end; discriminate.
  - apply string_of_view_no_assert.
Qed.

Lemma Variant_getString_returns (m : Memory) (v : Variant.t) :
  Variant.valid v = true ->
  (forall view len, Variant.u v = Variant.view_len view len ->
                    returns (string_of_view m view len)) ->
  returns (Variant.getString m v).
Proof.
  intros Hv Hview. destruct v as [ty un].
  destruct ty, un; simpl in Hv; try discriminate; try (eexists; reflexivity).
  - change (Variant.mk Variant.FLOAT (Variant.f_ f)) with (Variant.of_double f).
    rewrite (getString_float m f); [eexists; reflexivity|].
    pose proof (format_f_length f Hv). lia.
  - exact (Hview view len eq_refl).
Qed.

(** C9. [Node::getString] is for leaves: on a leaf it is the string form of
    the leaf's Variant and the assertion does not fire (for a well-formed
    leaf whose view, if it is one, lies in memory, it returns that string);
    on a branch the assertion fails, and no value is returned. *)
Theorem Node_getString_leaf_only :
  (forall (m : Memory) (this : Node.t),
      Node.type this = nullptr ->
      Node.getString m this = (v <- Node.get_variant this ;; Variant.getString m v)
      /\ Node.getString m this <> AssertFail)
  /\ (forall (m : Memory) (this : Node.t),
         Node.valid this = true -> Node.type this = nullptr ->
         (forall v view len,
             Node.u this = Node.variant v -> Variant.u v = Variant.view_len view len ->
             returns (string_of_view m view len)) ->
         exists v s, Node.u this = Node.variant v
                     /\ Variant.getString m v = Return s
                     /\ Node.getString m this = Return s)
  /\ (forall (m : Memory) (this : Node.t),
         Node.type this <> nullptr -> Node.getString m this = AssertFail).
Proof.
  split; [|split].
  - intros m this Hty. unfold Node.getString. rewrite Hty.
    split; [reflexivity|]. simpl.
    apply bind_no_assert; [|apply Variant_getString_no_assert].
    unfold Node.get_variant. destruct (Node.u this); discriminate.
  - intros m this Hv Hty Hview.
    destruct (Node_valid_cases this Hv) as [[_ (v & Hu & Hvv)]|[Hnz _]].
    + destruct (Variant_getString_returns m v Hvv (fun view len => Hview v view len Hu))
        as [s Hs].
      exists v, s. split; [exact Hu|]. split; [exact Hs|].
      unfold Node.getString, Node.get_variant. rewrite Hty, Hu. simpl. exact Hs.
    + rewrite Hty in Hnz. discriminate.
  - intros m this Hty. unfold Node.getString.
    destruct (Z.eqb_spec (Node.type this) 0) as [E|E]; [contradiction|].
    unfold nonzero. apply Z.eqb_neq in E. rewrite E. reflexivity.
Qed.

Lemma Node_getString_leaf_only_witness :
  let m := {| base := 4096; bytes := "abc" |} in
  let leaf := Node.mk nullptr 1 2 (Node.variant (Variant.of_view 4097 2)) in
  let branch := Node.mk 64 1 2 (Node.children [leaf]) in
  Node.valid leaf = true
  /\ Node.getString m leaf <> AssertFail
  /\ (exists v s, Node.u leaf = Node.variant v
                  /\ Variant.getString m v = Return s
                  /\ Node.getString m leaf = Return s)
  /\ Node.getString m branch = AssertFail.
Proof.
  intros m leaf branch. split; [reflexivity|]. split; [|split].
  - exact (proj2 (proj1 Node_getString_leaf_only m leaf eq_refl)).
  - apply (proj1 (proj2 Node_getString_leaf_only) m leaf eq_refl eq_refl).
    intros v view len Hu Hv. injection Hu as <-. injection Hv as <- <-.
    eexists; reflexivity.
  - apply (proj2 (proj2 Node_getString_leaf_only) m branch). discriminate.
Defined.

(** * Further properties of the code *)

(** ** Copies and moves of variants *)

Lemma Forall_map_id {A : Type} (f : A -> A) (l : list A) :
  Forall (fun x => f x = x) l -> map f l = l.
Proof. induction 1 as [|x l Hx _ IH]; simpl; congruence. Qed.

Lemma value_of_valid (x : Variant.t) :
  Variant.valid x = true -> Variant.valid (value_of x) = true.
Proof.
  induction x as [ty un Hun|ty a IH] using Variant_nested_ind; intros Hv.
  - destruct ty, un; simpl in *; try discriminate; try reflexivity; try assumption;
      exfalso; exact (Hun a eq_refl).
  - destruct ty; simpl in Hv; try discriminate. simpl.
    apply forallb_Forall in Hv. apply forallb_Forall.
    rewrite Forall_forall in *. intros y Hy.
    apply in_map_iff in Hy. destruct Hy as (z & <- & Hz). apply (IH z Hz), (Hv z Hz).
Qed.

Lemma value_of_idempotent (x : Variant.t) : value_of (value_of x) = value_of x.
Proof.
  induction x as [ty un Hun|ty a IH] using Variant_nested_ind.
  - destruct ty, un; try reflexivity; exfalso; exact (Hun a eq_refl).
  - destruct ty; try reflexivity; simpl; rewrite map_map;
      (f_equal; f_equal; apply map_ext_in; intros y Hy;
       rewrite Forall_forall in IH; apply (IH y Hy)).
Qed.

Lemma value_of_type (x : Variant.t) : Variant.type (value_of x) = Variant.type x.
Proof. destruct x as [ty un]. destruct ty, un; reflexivity. Qed.

(** X1. The copy constructor of a well-formed Variant returns a well-formed
    Variant with the discriminant and the payload of the source, the
    elements of an array copied one by one; copying the copy gives the same
    again. *)
Theorem Variant_copy_is_deep (x : Variant.t) :
  Variant.valid x = true ->
  Variant.copy x = Return (value_of x)
  /\ Variant.type (value_of x) = Variant.type x
  /\ (Variant.type x <> Variant.NIL -> Variant.type x <> Variant.ARRAY ->
      Variant.u (value_of x) = Variant.u x)
  /\ Variant.valid (value_of x) = true
  /\ Variant.copy (value_of x) = Return (value_of x).
Proof.
  intros Hv. split; [exact (Variant_copy_value x Hv)|].
  split; [apply value_of_type|]. split.
  - destruct x as [ty un].
    destruct ty, un; simpl in *; try discriminate; congruence.
  - split; [exact (value_of_valid x Hv)|].
    rewrite (Variant_copy_value _ (value_of_valid x Hv)), value_of_idempotent.
    reflexivity.
Qed.

Lemma Variant_copy_is_deep_witness :
  let x := Variant.of_vector [Variant.of_nullptr; Variant.of_string "a"] in
  Variant.valid x = true
  /\ Variant.copy x
     = Return (Variant.of_vector [Variant.default; Variant.of_string "a"]).
Proof.
  intros x. split; [reflexivity|].
  exact (proj1 (Variant_copy_is_deep x eq_refl)).
Defined.

(** X2. The move constructor of a well-formed Variant returns a well-formed
    Variant with the discriminant and payload of the source; the source
    keeps its discriminant, a moved-from string or vector is left empty and
    every other source is left as it was. *)
Theorem Variant_move_transfers (x : Variant.t) :
  Variant.valid x = true ->
  exists v rest,
    Variant.move x = Return (v, rest)
    /\ Variant.type v = Variant.type x
    /\ (Variant.type x <> Variant.NIL -> Variant.u v = Variant.u x)
    /\ Variant.valid v = true /\ Variant.valid rest = true
    /\ rest = match Variant.type x with
              | Variant.STRING => Variant.of_string ""
              | Variant.ARRAY => Variant.of_vector []
              | _ => x
              end.
Proof.
  intros Hv. destruct x as [ty un].
  destruct ty, un; simpl in Hv; try discriminate;
    (eexists; eexists; split; [reflexivity|]; split; [reflexivity|];
     split; [simpl; intros H; (reflexivity || congruence)|];
     split; [simpl; try reflexivity; assumption|];
     split; [simpl; try reflexivity; assumption|reflexivity]).
Qed.

Lemma Variant_move_transfers_witness :
  Variant.valid (Variant.of_string "abc") = true
  /\ exists v rest,
       Variant.move (Variant.of_string "abc") = Return (v, rest)
       /\ Variant.u v = Variant.s_ "abc" /\ rest = Variant.of_string "".
Proof.
  split; [reflexivity|].
  destruct (Variant_move_transfers (Variant.of_string "abc") eq_refl)
    as (v & rest & Hm & _ & Hu & _ & _ & Hrest).
  exists v, rest. split; [exact Hm|]. split; [|exact Hrest].
  apply Hu. discriminate.
Defined.

(** ** [operator ==] *)

Lemma double_eq_self (f : double) :
  double_eq f f = match f with S754_nan => false | _ => true end.
Proof.
  unfold double_eq, SFeqb. destruct f as [s|s| |s m e]; simpl; try reflexivity.
  - destruct s; reflexivity.
  - destruct s; rewrite Z.compare_refl, Pos.compare_cont_refl; reflexivity.
Qed.

Lemma double_eq_sym (f g : double) : double_eq f g = double_eq g f.
Proof.
  destruct (double_eq f g) eqn:E1; destruct (double_eq g f) eqn:E2; try reflexivity.
  - destruct (double_eq_cases f g E1) as [[Hf Hg]| ->].
    + destruct f, g; discriminate.
    + congruence.
  - destruct (double_eq_cases g f E2) as [[Hg Hf]| ->].
    + destruct f, g; discriminate.
    + congruence.
Qed.

Lemma bool_eqb_sym (b c : bool) : Bool.eqb b c = Bool.eqb c b.
Proof. destruct b, c; reflexivity. Qed.

Lemma bind2_comm {A B : Type} (c1 c2 : outcome A) (k : A -> A -> B) :
  c1 <> AssertFail -> c2 <> AssertFail ->
  (x <- c1 ;; y <- c2 ;; Return (k x y)) = (y <- c2 ;; x <- c1 ;; Return (k x y)).
Proof.
  destruct c1, c2; simpl; intros H1 H2; try reflexivity; congruence.
Qed.

Lemma std_equal_sym (a : list Variant.t) :
  Forall (fun x => forall b, Variant.eq x b = Variant.eq b x) a ->
  forall a', Variant.std_equal Variant.eq a a' = Variant.std_equal Variant.eq a' a.
Proof.
  induction 1 as [|x a Hx _ IH]; intros [|y a']; simpl; try reflexivity.
  rewrite Hx. destruct (Variant.eq y x) as [[|]| |]; simpl; auto.
Qed.

Lemma Variant_eq_sym (a : Variant.t) : forall b, Variant.eq a b = Variant.eq b a.
Proof.
  induction a as [ty un Hun|ty xs IH] using Variant_nested_ind; intros [tb ub].
  - destruct ty, tb; simpl; try reflexivity;
      destruct un, ub; simpl; try reflexivity;
      try (exfalso; eapply Hun; reflexivity);
      try (f_equal; first [apply bool_eqb_sym | apply Z.eqb_sym | apply String.eqb_sym
                          | apply double_eq_sym]).
  - destruct ty, tb; simpl; try reflexivity;
      destruct ub; simpl; try reflexivity.
    rewrite (Nat.eqb_sym (List.length xs)).
    destruct (List.length a =? List.length xs)%nat; [|reflexivity].
    apply std_equal_sym. exact IH.
Qed.

(** X3. [operator ==] is symmetric: [a == b] and [b == a] have the same
    outcome for every two Variants. *)
Theorem eq_symmetric (a b : Variant.t) : Variant.eq a b = Variant.eq b a.
Proof. apply Variant_eq_sym. Qed.

Lemma std_equal_true (a : list Variant.t) :
  forall a', List.length a = List.length a' ->
    (Variant.std_equal Variant.eq a a' = Return true
     <-> Forall2 (fun x y => Variant.eq x y = Return true) a a').
Proof.
  induction a as [|x a IH]; intros [|y a'] Hlen; simpl in *; try discriminate.
  - split; [constructor|reflexivity].
  - injection Hlen as Hlen. split.
    + intros H. destruct (Variant.eq x y) as [[|]| |] eqn:E; simpl in H; try discriminate.
      constructor; [exact E|]. apply IH; assumption.
    + intros H. inversion H as [|? ? ? ? Hxy Hrest]; subst. rewrite Hxy. simpl.
      apply IH; assumption.
Qed.

(** X4. Two Arrays are equal exactly when they have the same number of
    elements and the elements are equal pair by pair, in order. *)
Theorem eq_arrays_elementwise (a a' : list Variant.t) :
  Variant.eq (Variant.of_vector a) (Variant.of_vector a') = Return true
  <-> List.length a = List.length a'
      /\ Forall2 (fun x y => Variant.eq x y = Return true) a a'.
Proof.
  simpl. destruct (Nat.eqb_spec (List.length a) (List.length a')) as [Hlen|Hlen].
  - rewrite (std_equal_true a a' Hlen). tauto.
  - split; [discriminate|]. intros [H _]. contradiction.
Qed.

Lemma std_equal_self (a : list Variant.t) :
  Forall (fun x => Variant.eq x x = Return (nan_free x)) a ->
  Variant.std_equal Variant.eq a a = Return (forallb nan_free a).
Proof.
  induction 1 as [|x a Hx _ IH]; simpl; [reflexivity|].
  rewrite Hx. simpl. destruct (nan_free x); [exact IH|reflexivity].
Qed.

(** X5. For a well-formed Variant [x == x] holds exactly when [x] holds no
    NaN, in itself or in an element of an array. *)
Theorem eq_self_unless_nan (x : Variant.t) :
  Variant.valid x = true -> Variant.eq x x = Return (nan_free x).
Proof.
  induction x as [ty un Hun|ty a IH] using Variant_nested_ind; intros Hv.
  - destruct ty, un; simpl in *; try discriminate; try reflexivity;
      try (exfalso; eapply Hun; reflexivity);
      try (f_equal; first [apply Bool.eqb_reflx | apply Z.eqb_refl | apply String.eqb_refl]).
    rewrite double_eq_self. destruct f; reflexivity.
  - destruct ty; simpl in Hv; try discriminate. simpl.
    rewrite Nat.eqb_refl. apply std_equal_self.
    apply forallb_Forall in Hv. rewrite Forall_forall in *.
    intros y Hy. apply (IH y Hy), (Hv y Hy).
Qed.

Lemma eq_self_unless_nan_witness :
  Variant.valid (Variant.of_vector [Variant.of_long_long 1; Variant.of_double S754_nan]) = true
  /\ Variant.eq (Variant.of_vector [Variant.of_long_long 1; Variant.of_double S754_nan])
       (Variant.of_vector [Variant.of_long_long 1; Variant.of_double S754_nan])
     = Return false.
Proof.
  split; [reflexivity|].
  exact (eq_self_unless_nan
           (Variant.of_vector [Variant.of_long_long 1; Variant.of_double S754_nan]) eq_refl).
Defined.

Lemma eq_value_of (x : Variant.t) :
  Variant.valid x = true -> Variant.eq (value_of x) x = Return (nan_free x).
Proof.
  induction x as [ty un Hun|ty a IH] using Variant_nested_ind; intros Hv.
  - destruct ty, un; simpl in *; try discriminate; try reflexivity;
      try (exfalso; eapply Hun; reflexivity);
      try (f_equal; first [apply Bool.eqb_reflx | apply Z.eqb_refl | apply String.eqb_refl]).
    rewrite double_eq_self. destruct f; reflexivity.
  - destruct ty; simpl in Hv; try discriminate. simpl.
    rewrite length_map, Nat.eqb_refl.
    apply forallb_Forall in Hv. rewrite Forall_forall in *.
    assert (Hall : forall y, In y a -> Variant.eq (value_of y) y = Return (nan_free y))
      by (intros y Hy; apply (IH y Hy), (Hv y Hy)).
    clear IH Hv. induction a as [|y a IHa]; simpl; [reflexivity|].
    rewrite (Hall y (or_introl eq_refl)). simpl.
    destruct (nan_free y); [|reflexivity].
    apply IHa. intros z Hz. apply Hall. right. exact Hz.
Qed.

Lemma hash_value_of (H : StdHash) (m : Memory) (x : Variant.t) :
  Variant.valid x = true -> Variant.hash m (value_of x) = Variant.hash m x.
Proof.
  destruct x as [ty un]. destruct ty, un; simpl; intros Hv; try discriminate; reflexivity.
Qed.

(** X6. A copy of a well-formed Variant that holds no NaN compares equal to
    its original, in both directions, and has the same hash. *)
Theorem copy_equals_original (H : StdHash) (m : Memory) (x : Variant.t) :
  Variant.valid x = true -> nan_free x = true ->
  exists y, Variant.copy x = Return y
            /\ Variant.eq y x = Return true /\ Variant.eq x y = Return true
            /\ Variant.hash m y = Variant.hash m x.
Proof.
  intros Hv Hn. exists (value_of x).
  split; [exact (Variant_copy_value x Hv)|].
  assert (He : Variant.eq (value_of x) x = Return true)
    by (rewrite (eq_value_of x Hv), Hn; reflexivity).
  split; [exact He|]. split; [rewrite <- He; apply Variant_eq_sym|].
  exact (hash_value_of H m x Hv).
Qed.

Lemma copy_equals_original_witness :
  let m := {| base := 4096; bytes := "ab" |} in
  let x := Variant.of_vector [Variant.of_view 4096 2; Variant.of_double (S754_zero true)] in
  Variant.valid x = true /\ nan_free x = true
  /\ exists y, Variant.copy x = Return y
               /\ Variant.eq y x = Return true /\ Variant.eq x y = Return true
               /\ Variant.hash (H := fnv_hash) m y = Variant.hash (H := fnv_hash) m x.
Proof.
  intros m x. split; [reflexivity|]. split; [reflexivity|].
  exact (copy_equals_original fnv_hash m x eq_refl eq_refl).
Defined.

(** ** Ordering *)

Lemma string_ltb_compare (s t : string) :
  String.ltb s t = match String.compare s t with Lt => true | _ => false end.
Proof. unfold String.ltb. destruct (String.compare s t); reflexivity. Qed.

Lemma string_eqb_compare (s t : string) :
  String.eqb s t = match String.compare s t with Eq => true | _ => false end.
Proof.
  destruct (String.eqb_spec s t) as [->|Hne].
  - pose proof (String.compare_antisym t t) as H.
    destruct (String.compare t t); simpl in H; try discriminate H; reflexivity.
  - destruct (String.compare s t) eqn:E; try reflexivity.
    apply String.compare_eq_iff in E. contradiction.
Qed.

(** X7. Ints order totally, and so do Strings by their characters: of
    [a < b], [a == b] and [b < a] exactly one holds for two Ints and for two
    Strings. *)
Theorem order_trichotomy (m : Memory) :
  (forall i j : Z,
      exists l e g,
        Variant.lt m (Variant.of_long_long i) (Variant.of_long_long j) = Return l
        /\ Variant.eq (Variant.of_long_long i) (Variant.of_long_long j) = Return e
        /\ Variant.lt m (Variant.of_long_long j) (Variant.of_long_long i) = Return g
        /\ exactly_one l e g)
  /\ (forall s t : string,
         exists l e g,
           Variant.lt m (Variant.of_string s) (Variant.of_string t) = Return l
           /\ Variant.eq (Variant.of_string s) (Variant.of_string t) = Return e
           /\ Variant.lt m (Variant.of_string t) (Variant.of_string s) = Return g
           /\ exactly_one l e g).
Proof.
  split.
  - intros i j. exists (i <? j), (i =? j), (j <? i).
    repeat (split; [reflexivity|]). unfold exactly_one.
    destruct (Z.ltb_spec i j), (Z.eqb_spec i j), (Z.ltb_spec j i); try lia; tauto.
  - intros s t. exists (String.ltb s t), (String.eqb s t), (String.ltb t s).
    repeat (split; [reflexivity|]). unfold exactly_one.
    rewrite !string_ltb_compare, string_eqb_compare, (String.compare_antisym t s).
    destruct (String.compare s t); simpl;
      [right; left|left|right; right]; repeat split.
Qed.

(** ** Assignment of variants, in general *)

(** X8. Neither assignment operator of Variant ever changes the
    discriminant of the destination or runs a destructor on its storage:
    whenever [a = b] returns, by copy or by move, [a] has the discriminant
    it had, and the calls made on its storage are at most the placement
    construction of an empty string or vector. *)
Theorem assign_never_retags :
  (forall (spare : list nat -> nat) (this v this' : Variant.t) (log : list Variant.event),
      Variant.assign spare this v = Return (this', log) ->
      Variant.type this' = Variant.type this
      /\ ~ In Variant.destroy_string log /\ ~ In Variant.destroy_vector log)
  /\ (forall (this v this' v' : Variant.t) (log : list Variant.event),
         Variant.assign_move this v = Return (this', v', log) ->
         Variant.type this' = Variant.type this
         /\ ~ In Variant.destroy_string log /\ ~ In Variant.destroy_vector log).
Proof.
  split.
  - intros spare this v this' log H. split; [exact (assign_type _ _ _ _ _ H)|].
    destruct (assign_log _ _ _ _ _ H) as [->|[->| ->]]; simpl; intuition discriminate.
  - intros this v this' v' log H. split; [exact (assign_move_type _ _ _ _ _ H)|].
    destruct (assign_move_log _ _ _ _ _ H) as [->|[->| ->]]; simpl; intuition discriminate.
Qed.

Lemma assign_never_retags_witness :
  exists this' log,
    Variant.assign (fun _ => O) (Variant.of_string "old") (Variant.of_vector [])
    = Return (this', log)
    /\ Variant.type this' = Variant.STRING
    /\ ~ In Variant.destroy_string log.
Proof.
  eexists. eexists. split; [reflexivity|].
  destruct (proj1 assign_never_retags (fun _ => O) (Variant.of_string "old")
              (Variant.of_vector []) _ _ eq_refl) as (Hty & Hs & _).
  split; [exact Hty|exact Hs].
Defined.











(** ** Numbers and their text *)

(** X10. The string form of an Int reads back as the same Int: [getInt] of
    the String that [getString] returns for [i] is [i], for every
    [long long]. *)
Theorem getInt_of_getString (m : Memory) (i : Z) :
  is_long_long i = true ->
  exists s, Variant.getString m (Variant.of_long_long i) = Return s
            /\ Variant.getInt m (Variant.of_string s) = Return i.
Proof.
  intros Hi. exists (LibC.to_string i). split; [reflexivity|].
  unfold is_long_long in Hi. apply andb_true_iff in Hi. destruct Hi as [Hlo Hhi].
  apply Z.leb_le in Hlo. apply Z.leb_le in Hhi.
  rewrite getInt_string, atoll_c_str.
  rewrite <- (append_empty_r (LibC.to_string i)).
  rewrite (atoll_to_string i "" (conj Hlo Hhi) eq_refl). reflexivity.
Qed.

Lemma getInt_of_getString_witness :
  is_long_long (- 2 ^ 63) = true
  /\ exists s, Variant.getString {| base := 4096; bytes := "" |}
                 (Variant.of_long_long (- 2 ^ 63)) = Return s
               /\ Variant.getInt {| base := 4096; bytes := "" |} (Variant.of_string s)
                  = Return (- 2 ^ 63).
Proof.
  split; [reflexivity|].
  exact (getInt_of_getString {| base := 4096; bytes := "" |} (- 2 ^ 63) eq_refl).
Defined.

Lemma digit_char_isdigit (d : Z) : 0 <= d < 10 -> LibC.isdigit (LibC.digit_char d) = true.
Proof. intros H. each_digit d H; reflexivity. Qed.

Lemma isdigit_not_point (c : ascii) : LibC.isdigit c = true -> Ascii.eqb c "." = false.
Proof.
  intros H. destruct (Ascii.eqb_spec c ".") as [->|]; [discriminate H|reflexivity].
Qed.

Lemma all_digits_no_point (s : string) : all_digits s = true -> has_point s = false.
Proof.
  induction s as [|c s IH]; simpl; [reflexivity|]. intros H.
  apply andb_true_iff in H. destruct H as [Hc Hs].
  rewrite (isdigit_not_point c Hc), (IH Hs). reflexivity.
Qed.

Lemma all_digits_append (a b : string) :
  all_digits (a ++ b) = all_digits a && all_digits b.
Proof. induction a as [|c a IH]; simpl; [reflexivity|]. rewrite IH, andb_assoc. reflexivity. Qed.

Lemma decimal_loop_all_digits (fuel : nat) :
  forall (n : Z) (acc : string),
    all_digits acc = true -> all_digits (LibC.decimal_loop fuel n acc) = true.
Proof.
  induction fuel as [|fuel IH]; intros n acc Hacc; simpl; [exact Hacc|].
  assert (Hd : all_digits (String (LibC.digit_char (n mod 10)) acc) = true).
  { simpl. rewrite digit_char_isdigit by (apply Z.mod_pos_bound; lia). exact Hacc. }
  destruct (n <? 10); [exact Hd|apply IH; exact Hd].
Qed.

Lemma decimal_all_digits (n : Z) : all_digits (LibC.decimal n) = true.
Proof. apply decimal_loop_all_digits. reflexivity. Qed.

Lemma six_digits_all_digits (r : Z) : all_digits (LibC.six_digits r) = true.
Proof.
  unfold LibC.six_digits. simpl.
  rewrite !digit_char_isdigit by (apply Z.mod_pos_bound; lia). reflexivity.
Qed.

Lemma split_point_append (d frac : string) :
  has_point d = false -> split_point (d ++ String "." frac) = (d, Some frac).
Proof.
  induction d as [|c d IH]; simpl; [reflexivity|]. intros H.
  apply orb_false_iff in H. destruct H as [Hc Hd]. rewrite Hc, (IH Hd). reflexivity.
Qed.

Lemma has_point_minus (neg : bool) (d : string) :
  has_point (LibC.minus neg d) = has_point d.
Proof. destruct neg; reflexivity. Qed.

Lemma minus_append (neg : bool) (a b : string) :
  (LibC.minus neg a ++ b)%string = LibC.minus neg (a ++ b).
Proof. destruct neg; reflexivity. Qed.

(** The rendering of a finite double, cut at its decimal point. *)
Lemma format_f_finite (s : bool) (m : positive) (e : Z) :
  split_point (LibC.format_f (S754_finite s m e))
  = (LibC.minus s (LibC.decimal (LibC.scaled_millionths m e / 10 ^ 6)),
     Some (LibC.six_digits (LibC.scaled_millionths m e mod 10 ^ 6))).
Proof.
  unfold LibC.format_f. rewrite <- minus_append. apply split_point_append.
  rewrite has_point_minus. apply all_digits_no_point, decimal_all_digits.
Qed.

Lemma scaled_millionths_integer (m : positive) (e v : Z) :
  integer_value m e = Some v ->
  LibC.scaled_millionths m e = v * 10 ^ 6 /\ 0 < v
  /\ v = (if 0 <=? e then Zpos m * 2 ^ e else Zpos m / 2 ^ (- e)).
Proof.
  unfold integer_value, LibC.scaled_millionths.
  destruct (Z.leb_spec 0 e) as [Hpos|Hneg].
  - intros H.
    assert (H2 : 0 < 2 ^ e) by (apply Z.pow_pos_nonneg; lia).
    assert (Hp : 0 < Zpos m * 2 ^ e) by (apply Z.mul_pos_pos; lia).
    injection H as <-.
    split; [reflexivity|]. split; [exact Hp|reflexivity].
  - destruct (Z.eqb_spec (Zpos m mod 2 ^ (- e)) 0) as [Hmod|]; [|discriminate].
    intros H. injection H as <-.
    set (d := 2 ^ (- e)) in *.
    assert (Hd : 0 < d) by (apply Z.pow_pos_nonneg; lia).
    pose proof (Z.div_mod (Zpos m) d ltac:(lia)) as Hm. rewrite Hmod in Hm.
    assert (Hv : 0 < Zpos m / d) by nia.
    assert (Hn : Zpos m * 10 ^ 6 = (Zpos m / d * 10 ^ 6) * d) by lia.
    rewrite Hn, Z.div_mul, Z.mod_mul by lia.
    replace (2 * 0 ?= d) with Lt by (symmetry; apply Z.compare_lt_iff; lia).
    split; [reflexivity|]. split; [exact Hv|reflexivity].
Qed.

Lemma to_string_minus (s : bool) (v : Z) :
  0 < v -> LibC.to_string (if s then - v else v) = LibC.minus s (LibC.decimal v).
Proof.
  intros Hv. unfold LibC.to_string, LibC.minus. destruct s.
  - destruct (Z.ltb_spec (- v) 0); [|lia]. rewrite Z.opp_involutive. reflexivity.
  - destruct (Z.ltb_spec v 0); [lia|reflexivity].
Qed.

Lemma integral_float_text (mem : Memory) (s : bool) (m : positive) (e v : Z) :
  is_double (S754_finite s m e) = true ->
  integer_value m e = Some v ->
  is_long_long (if s then - v else v) = true ->
  Variant.getInt mem (Variant.of_double (S754_finite s m e))
  = Return (if s then - v else v)
  /\ Variant.getString mem (Variant.of_double (S754_finite s m e))
     = Variant.getString mem (Variant.of_long_long (if s then - v else v))
  /\ Variant.getString mem (Variant.of_double (S754_finite s m e))
     = Return (LibC.to_string (if s then - v else v)).
Proof.
  intros Hf Hv Hi.
  destruct (scaled_millionths_integer m e v Hv) as (Hq & Hpos & Hmag).
  assert (Hs : Variant.getString mem (Variant.of_double (S754_finite s m e))
               = Return (LibC.to_string (if s then - v else v))).
  { rewrite getString_float by (pose proof (format_f_length _ Hf); lia).
    unfold trimmed. rewrite format_f_finite, Hq, Z.div_mul, Z.mod_mul by lia.
    rewrite (to_string_minus s v Hpos). reflexivity. }
  split; [|split; [rewrite Hs; reflexivity|exact Hs]].
  change (Variant.getInt mem (Variant.of_double (S754_finite s m e)))
    with (to_long_long (S754_finite s m e)).
  unfold to_long_long. cbv zeta. rewrite <- Hmag, Hi. reflexivity.
Qed.

(** X11. A Float that is not zero and whose value is an integer in the
    range of [long long] has the string form of the Int it converts to:
    [getString] prints the integer without a decimal point, and it is the
    text [getString] gives for [getInt] of the same Float. Of the two
    zeros, [0.0] prints as ["0"] like the Int 0, and [-0.0] prints as
    ["-0"], where [getInt] gives 0, which prints as ["0"]. *)
Theorem getString_integral_float (mem : Memory) :
  (forall (s : bool) (m : positive) (e v : Z),
      is_double (S754_finite s m e) = true ->
      integer_value m e = Some v ->
      is_long_long (if s then - v else v) = true ->
      Variant.getInt mem (Variant.of_double (S754_finite s m e))
      = Return (if s then - v else v)
      /\ Variant.getString mem (Variant.of_double (S754_finite s m e))
         = Variant.getString mem (Variant.of_long_long (if s then - v else v))
      /\ Variant.getString mem (Variant.of_double (S754_finite s m e))
         = Return (LibC.to_string (if s then - v else v)))
  /\ (forall s : bool,
         Variant.getInt mem (Variant.of_double (S754_zero s)) = Return 0
         /\ Variant.getString mem (Variant.of_double (S754_zero s))
            = Return (if s then "-0" else "0")
         /\ Variant.getString mem (Variant.of_long_long 0) = Return "0").
Proof.
  split.
  - exact (integral_float_text mem).
  - intros s. split; [reflexivity|]. split; [|reflexivity].
    destruct s; reflexivity.
Qed.

Lemma getString_integral_float_witness :
  let mem := {| base := 4096; bytes := "" |} in
  is_double (LibC.strtod "-42.0") = true
  /\ Variant.getInt mem (Variant.of_double (LibC.strtod "-42.0")) = Return (-42)
  /\ Variant.getString mem (Variant.of_double (LibC.strtod "-42.0")) = Return "-42"
  /\ Variant.getString mem (Variant.of_double (S754_zero true)) = Return "-0".
Proof.
  intros mem. split; [reflexivity|].
  destruct (proj1 (getString_integral_float mem) true 5910974510923776%positive (-47) 42
              eq_refl eq_refl eq_refl) as (Hi & _ & Hs).
  split; [exact Hi|]. split; [exact Hs|].
  exact (proj1 (proj2 (proj2 (getString_integral_float mem) true))).
Defined.

(** ** The text of a Float is tidy *)

Lemma last_char_snoc (h : string) (c : ascii) : last_char (h ++ String c "") = Some c.
Proof.
  induction h as [|x h IH]; [reflexivity|].
  simpl. destruct (h ++ String c "")%string eqn:E; [destruct h; discriminate|exact IH].
Qed.

Lemma last_char_append (a b : string) :
  b <> EmptyString -> last_char (a ++ b) = last_char b.
Proof.
  intros Hb. induction a as [|x a IH]; [reflexivity|].
  simpl. destruct (a ++ b)%string eqn:E; [|exact IH].
  destruct a; [simpl in E; contradiction|discriminate].
Qed.

Lemma all_digits_last (s : string) (c : ascii) :
  all_digits s = true -> last_char s = Some c -> LibC.isdigit c = true.
Proof.
  induction s as [|x s IH]; [discriminate|]. simpl. intros H Hl.
  apply andb_true_iff in H. destruct H as [Hx Hs].
  destruct s; [injection Hl as <-; exact Hx|apply IH; assumption].
Qed.

Lemma decimal_loop_nonempty (fuel : nat) (n : Z) (acc : string) :
  LibC.decimal_loop (S fuel) n acc <> EmptyString.
Proof.
  destruct (decimal_loop_head fuel n acc) as (d & t & _ & ->). discriminate.
Qed.

Lemma has_point_append (a b : string) : has_point (a ++ b) = has_point a || has_point b.
Proof. induction a as [|c a IH]; simpl; [reflexivity|]. rewrite IH, orb_assoc. reflexivity. Qed.

(** What [trimmed] leaves of digits, a point and digits. *)
Lemma trimmed_digits (neg : bool) (d frac : string) :
  all_digits d = true -> d <> EmptyString -> all_digits frac = true ->
  exists c, last_char (trimmed (LibC.minus neg d ++ String "." frac)) = Some c
            /\ LibC.isdigit c = true
            /\ (has_point (trimmed (LibC.minus neg d ++ String "." frac)) = true ->
                Ascii.eqb c "0" = false).
Proof.
  intros Hd Hne Hfrac. unfold trimmed.
  rewrite split_point_append
    by (rewrite has_point_minus; apply all_digits_no_point; exact Hd).
  assert (Hlast : exists c, last_char (LibC.minus neg d) = Some c /\ LibC.isdigit c = true).
  { destruct (last_char d) as [c|] eqn:E.
    - exists c. split; [|exact (all_digits_last d c Hd E)].
      destruct neg; [|exact E]. simpl. destruct d; [contradiction|exact E].
    - destruct d as [|x d]; [contradiction|]. exfalso.
      clear Hd Hne. revert x E. induction d as [|y d IH]; intros x E; [discriminate|].
      apply (IH y). exact E. }
  destruct (trim_trailing_zeros_text frac) as [k Hk].
  destruct (trim_trailing_zeros_last frac) as [E|(h & c & E & Hc)]; rewrite E.
  - simpl. destruct Hlast as (c & Hl & Hc). exists c. split; [exact Hl|].
    split; [exact Hc|]. rewrite has_point_minus, (all_digits_no_point d Hd). discriminate.
  - assert (Hne' : is_empty (h ++ String c "") = false) by (destruct h; reflexivity).
    rewrite Hne'. exists c.
    split.
    + rewrite last_char_append by discriminate.
      change (String "." (h ++ String c ""))%string
        with ((String "." h) ++ String c "")%string.
      apply last_char_snoc.
    + split; [|intros _; exact Hc].
      rewrite Hk, E, all_digits_append in Hfrac.
      apply andb_true_iff in Hfrac. destruct Hfrac as [Hfrac _].
      exact (all_digits_last _ c Hfrac (last_char_snoc h c)).
Qed.

(** X12. The string form of a Float never ends in a decimal point, and when
    it has a decimal point it does not end in ['0']: for every finite
    double [getString] returns text whose last character is a digit, which
    is not ['0'] if the text has a point. *)
Theorem getString_float_tidy (mem : Memory) (s : bool) (m : positive) (e : Z) :
  is_double (S754_finite s m e) = true ->
  exists text c,
    Variant.getString mem (Variant.of_double (S754_finite s m e)) = Return text
    /\ last_char text = Some c
    /\ LibC.isdigit c = true
    /\ (has_point text = true -> Ascii.eqb c "0" = false).
Proof.
  intros Hf.
  rewrite getString_float by (pose proof (format_f_length _ Hf); lia).
  destruct (trimmed_digits s (LibC.decimal (LibC.scaled_millionths m e / 10 ^ 6))
              (LibC.six_digits (LibC.scaled_millionths m e mod 10 ^ 6))
              (decimal_all_digits _) (decimal_loop_nonempty _ _ _)
              (six_digits_all_digits _)) as (c & Hl & Hc & Hp).
  exists (trimmed (LibC.format_f (S754_finite s m e))), c.
  unfold LibC.format_f. rewrite <- minus_append.
  split; [reflexivity|]. split; [exact Hl|]. split; [exact Hc|exact Hp].
Qed.

Lemma getString_float_tidy_witness :
  is_double (LibC.strtod "0.50") = true
  /\ exists text c,
       Variant.getString {| base := 4096; bytes := "" |}
         (Variant.of_double (LibC.strtod "0.50")) = Return text
       /\ last_char text = Some c /\ LibC.isdigit c = true
       /\ (has_point text = true -> Ascii.eqb c "0" = false).
Proof.
  split; [reflexivity|].
  exact (getString_float_tidy {| base := 4096; bytes := "" |} false
           4503599627370496 (-53) eq_refl).
Defined.

(** ** Truthiness under a policy *)

Lemma testbit_land_le (f1 f2 k : Z) :
  Z.land f1 f2 = f1 -> Z.testbit f1 k = true -> Z.testbit f2 k = true.
Proof.
  intros H Hb. rewrite <- H, Z.land_spec in Hb.
  apply andb_true_iff in Hb. exact (proj2 Hb).
Qed.

Lemma isTruthy_bits (x : Variant.t) (f g : Z) :
  Z.testbit f 0 = Z.testbit g 0 -> Z.testbit f 1 = Z.testbit g 1 ->
  Z.testbit f 2 = Z.testbit g 2 ->
  Variant.isTruthy x f = Variant.isTruthy x g.
Proof.
  intros H0 H1 H2. unfold Variant.isTruthy.
  rewrite !falsy_0_flag, !falsy_empty_string_flag, !falsy_nil_flag.
  unfold treat_0_as_false, treat_empty_string_as_false, treat_nil_as_false.
  rewrite H0, H1, H2. reflexivity.
Qed.

(** X13. The falsiness policy only ever takes truthiness away. Of the mask
    nothing but the three flag bits is read; a Variant that is truthy under
    a mask is truthy under every mask with fewer flags; and under the empty
    mask every well-formed Variant other than a Bool is truthy. *)
Theorem isTruthy_policy :
  (forall (x : Variant.t) (f : Z),
      Variant.isTruthy x f = Variant.isTruthy x (Z.land f 7))
  /\ (forall (x : Variant.t) (f1 f2 : Z),
         Z.land f1 f2 = f1 ->
         Variant.isTruthy x f2 = Return true -> Variant.isTruthy x f1 = Return true)
  /\ (forall x : Variant.t,
         Variant.valid x = true -> Variant.type x <> Variant.BOOL ->
         Variant.isTruthy x FALSY_FALSE = Return true).
Proof.
  split; [|split].
  - intros x f. apply isTruthy_bits; rewrite Z.land_spec;
      change (Z.testbit 7 0) with true; change (Z.testbit 7 1) with true;
      change (Z.testbit 7 2) with true; rewrite andb_true_r; reflexivity.
  - intros x f1 f2 Hle. unfold Variant.isTruthy.
    rewrite !falsy_0_flag, !falsy_empty_string_flag, !falsy_nil_flag.
    unfold treat_0_as_false, treat_empty_string_as_false, treat_nil_as_false.
    pose proof (testbit_land_le f1 f2 0 Hle) as H0.
    pose proof (testbit_land_le f1 f2 1 Hle) as H1.
    pose proof (testbit_land_le f1 f2 2 Hle) as H2.
    destruct (Variant.type x); try (intros H; exact H);
      match goal with
      | |- context [Z.testbit f1 ?k] =>
          destruct (Z.testbit f1 k) eqn:E;
          [match goal with Hk : true = true -> _ |- _ => rewrite (Hk eq_refl) end;
           intros H; exact H
          |intros _; reflexivity]
      end.
  - intros [ty un] Hv Hty.
    destruct ty, un; simpl in *; try discriminate; try reflexivity. congruence.
Qed.

Lemma isTruthy_policy_witness :
  Z.land FALSY_0 (FALSY_0 + FALSY_NIL) = FALSY_0
  /\ Variant.isTruthy (Variant.of_string "") (FALSY_0 + FALSY_NIL) = Return true
  /\ Variant.isTruthy (Variant.of_string "") FALSY_0 = Return true
  /\ Variant.isTruthy Variant.default FALSY_FALSE = Return true.
Proof.
  split; [reflexivity|]. split; [reflexivity|]. split.
  - exact (proj1 (proj2 isTruthy_policy) (Variant.of_string "") FALSY_0
             (FALSY_0 + FALSY_NIL) eq_refl eq_refl).
  - apply (proj2 (proj2 isTruthy_policy) Variant.default eq_refl). discriminate.
Defined.

(** X14. A Variant constructed from a pointer is Nil exactly when the
    pointer is null, is well-formed, and is falsy exactly when the pointer
    is null and the mask treats nil as false. *)
Theorem of_pointer_truthy (p : ptr) (f : Z) :
  Variant.valid (Variant.of_pointer p) = true
  /\ (Variant.type (Variant.of_pointer p) = Variant.NIL <-> p = nullptr)
  /\ (Variant.type (Variant.of_pointer p) = Variant.POINTER <-> p <> nullptr)
  /\ Variant.isTruthy (Variant.of_pointer p) f
     = Return (negb (treat_nil_as_false f && (p =? nullptr))).
Proof.
  unfold Variant.of_pointer, nullptr.
  change (nonzero p) with (negb (p =? 0)).
  destruct (Z.eqb_spec p 0) as [->|Hp]; cbn [negb].
  - split; [reflexivity|]. split; [tauto|].
    split; [split; [discriminate|congruence]|].
    unfold Variant.isTruthy. cbn [Variant.type]. rewrite falsy_nil_flag, andb_true_r.
    reflexivity.
  - split; [reflexivity|]. split; [split; [discriminate|contradiction]|].
    split; [tauto|].
    unfold Variant.isTruthy. cbn [Variant.type]. rewrite falsy_nil_flag, andb_false_r.
    destruct (treat_nil_as_false f); simpl; [|reflexivity].
    unfold nonzero. apply Z.eqb_neq in Hp. rewrite Hp. reflexivity.
Qed.

(** ** Hashing *)

(** X15. A String and a StringView of the same text have the same string
    form and the same hash, although they never compare equal. *)
Theorem hash_string_and_view (H : StdHash) (m : Memory) (view len : Z) (s : string) :
  string_of_view m view len = Return s ->
  Variant.getString m (Variant.of_view view len) = Variant.getString m (Variant.of_string s)
  /\ Variant.hash m (Variant.of_view view len) = Variant.hash m (Variant.of_string s)
  /\ Variant.eq (Variant.of_view view len) (Variant.of_string s) = Return false
  /\ Variant.eq (Variant.of_string s) (Variant.of_view view len) = Return false.
Proof.
  intros Hs. unfold Variant.hash, Variant.getString. simpl. rewrite Hs.
  repeat split; reflexivity.
Qed.

Lemma hash_string_and_view_witness :
  let m := {| base := 4096; bytes := "abc" |} in
  string_of_view m 4097 2 = Return "bc"
  /\ Variant.hash (H := fnv_hash) m (Variant.of_view 4097 2)
     = Variant.hash (H := fnv_hash) m (Variant.of_string "bc").
Proof.
  intros m. split; [reflexivity|].
  exact (proj1 (proj2 (hash_string_and_view fnv_hash m 4097 2 "bc" eq_refl))).
Defined.

(** X16. For every family of [std::hash] functions that hashes equal
    doubles alike, Variants that compare equal have the same hash whenever
    the left one is not a StringView; all Arrays hash to 0. *)
Theorem eq_implies_hash_except_views (H : StdHash) (m : Memory) :
  hash_proper H ->
  (forall a b : Variant.t,
      Variant.type a <> Variant.STRING_VIEW ->
      Variant.eq a b = Return true -> Variant.hash m a = Variant.hash m b)
  /\ (forall a : list Variant.t, Variant.hash m (Variant.of_vector a) = Return 0).
Proof.
  intros Hp. split.
  - intros a b Hview Heq. exact (eq_hash H m a b Hp Hview Heq).
  - intros a. reflexivity.
Qed.

Lemma eq_implies_hash_except_views_witness :
  let m := {| base := 4096; bytes := "" |} in
  hash_proper fnv_hash
  /\ Variant.eq (Variant.of_double (S754_zero false)) (Variant.of_double (S754_zero true))
     = Return true
  /\ Variant.hash (H := fnv_hash) m (Variant.of_double (S754_zero false))
     = Variant.hash (H := fnv_hash) m (Variant.of_double (S754_zero true)).
Proof.
  intros m. split; [exact fnv_hash_proper|]. split; [reflexivity|].
  apply (proj1 (eq_implies_hash_except_views fnv_hash m fnv_hash_proper));
    [discriminate|reflexivity].
Defined.

(** ** Numbers behind a view *)

(** X17. [getInt] on a StringView does not stop at the view's length: it
    parses the C string at the view's address, so it gives [i] whenever the
    decimal text of [i] starts there, whatever [len] is, while [getString]
    gives the [len] characters of the view. *)
Theorem getInt_view_ignores_len (m : Memory) (view : ptr) (i : Z) (rest : string) :
  c_str_at m view = Return (LibC.to_string i ++ rest)%string ->
  LLONG_MIN <= i <= LLONG_MAX -> stops rest = true ->
  forall len : Z,
    Variant.getInt m (Variant.of_view view len) = Return i
    /\ Variant.getString m (Variant.of_view view len) = string_of_view m view len.
Proof.
  intros Hc Hi Hrest len. split; [|reflexivity].
  unfold Variant.getInt. simpl. rewrite Hc. simpl.
  rewrite (atoll_to_string i rest Hi Hrest). reflexivity.
Qed.

Lemma getInt_view_ignores_len_witness :
  let m := {| base := 4096; bytes := String "1" (String "2" (String zero "")) |} in
  c_str_at m 4096 = Return (LibC.to_string 12 ++ "")%string
  /\ Variant.getInt m (Variant.of_view 4096 1) = Return 12
  /\ Variant.getString m (Variant.of_view 4096 1) = Return "1".
Proof.
  intros m. split; [reflexivity|].
  destruct (getInt_view_ignores_len m 4096 12 "" eq_refl ltac:(split; discriminate)
              eq_refl 1) as [Hi Hs].
  split; [exact Hi|]. rewrite Hs. reflexivity.
Defined.

(** ** Copies of trees *)

Lemma tree_of_valid (x : Node.t) : Node.valid x = true -> Node.valid (tree_of x) = true.
Proof.
  induction x as [ty l c|ty l c v|ty l c cs IH] using Node_nested_ind;
    simpl; intros Hv; [exact Hv| |].
  - apply andb_true_iff in Hv. destruct Hv as [Hpos Hv].
    apply andb_true_iff in Hv. destruct Hv as [Hty Hv].
    rewrite Hpos, Hty, (value_of_valid v Hv). reflexivity.
  - apply andb_true_iff in Hv. destruct Hv as [Hpos Hv].
    apply andb_true_iff in Hv. destruct Hv as [Hty Hv].
    rewrite Hpos, Hty. simpl.
    apply forallb_Forall in Hv. apply forallb_Forall.
    rewrite Forall_forall in *. intros y Hy.
    apply in_map_iff in Hy. destruct Hy as (z & <- & Hz). apply (IH z Hz), (Hv z Hz).
Qed.









(** ** [walk] *)

Lemma foldM_walk {S : Type} (callback : Node.t -> S -> S) (cs : list Node.t) :
  Forall (fun x => forall s, Node.walk callback x s
                             = Return (fold_left (fun s n => callback n s) (preorder x) s)) cs ->
  forall s, foldM (Node.walk callback) cs s
            = Return (fold_left (fun s n => callback n s) (flat_map preorder cs) s).
Proof.
  induction 1 as [|x cs Hx _ IH]; intros s; simpl; [reflexivity|].
  rewrite Hx. simpl. rewrite IH, fold_left_app. reflexivity.
Qed.

(** X19. [walk] calls the callback once on every node of a well-formed
    tree, on a node before its children and on the children from first to
    last: the state it leaves is the callback folded over the pre-order. *)
Theorem walk_preorder {S : Type} (callback : Node.t -> S -> S) (this : Node.t) :
  Node.valid this = true ->
  forall s : S,
    Node.walk callback this s
    = Return (fold_left (fun s n => callback n s) (preorder this) s).
Proof.
  induction this as [ty l c|ty l c v|ty l c cs IH] using Node_nested_ind;
    simpl; intros Hv s.
  - rewrite andb_false_r in Hv. discriminate.
  - apply andb_true_iff in Hv. destruct Hv as [_ Hv].
    apply andb_true_iff in Hv. destruct Hv as [Hty _].
    apply negb_true_iff in Hty. rewrite Hty. reflexivity.
  - apply andb_true_iff in Hv. destruct Hv as [_ Hv].
    apply andb_true_iff in Hv. destruct Hv as [Hty Hv]. rewrite Hty.
    apply foldM_walk. apply forallb_Forall in Hv.
    rewrite Forall_forall in *. intros y Hy. apply (IH y Hy), (Hv y Hy).
Qed.

Lemma walk_preorder_witness :
  let leaf := Node.mk nullptr 3 4 (Node.variant (Variant.of_string "x")) in
  let x := Node.mk 64 1 2 (Node.children [leaf; Node.mk 72 5 6 (Node.children [leaf])]) in
  Node.valid x = true
  /\ Node.walk (fun n lines => (lines ++ [Node.line n])%list) x [] = Return [1; 3; 5; 3].
Proof.
  intros leaf x. split; [reflexivity|].
  exact (walk_preorder (fun n lines => (lines ++ [Node.line n])%list) x eq_refl []).
Defined.

(** ** Copy assignment, move construction and move assignment of nodes *)

Lemma Node_valid_position (x : Node.t) :
  Node.valid x = true -> is_size_t (Node.line x) && is_size_t (Node.column x) = true.
Proof.
  destruct x as [ty l c un]. simpl. intros Hv.
  apply andb_true_iff in Hv. exact (proj1 Hv).
Qed.

Lemma Variant_move_valid (x : Variant.t) :
  Variant.valid x = true ->
  exists v rest,
    Variant.move x = Return (v, rest)
    /\ Variant.valid v = true /\ Variant.valid rest = true
    /\ Variant.type v = Variant.type x
    /\ (Variant.type x <> Variant.NIL -> Variant.u v = Variant.u x)
    /\ exists rest', Variant.move v = Return (v, rest').
Proof.
  intros Hv. destruct x as [ty un].
  destruct ty, un; simpl in Hv; try discriminate;
    (eexists; eexists; split; [reflexivity|];
     split; [simpl; try reflexivity; assumption|];
     split; [simpl; try reflexivity; assumption|];
     split; [reflexivity|];
     split; [simpl; intros H; (reflexivity || congruence)|];
     eexists; reflexivity).
Qed.

(** X20. Copy assignment between well-formed nodes returns a well-formed
    node with the type of the source. From a branch the destination gets
    the children the copy constructor would build; from a leaf it gets a
    Nil variant, whatever the leaf held. *)
Theorem Node_assign_result (this n : Node.t) :
  Node.valid this = true -> Node.valid n = true ->
  exists this',
    Node.assign this n = Return this'
    /\ Node.valid this' = true
    /\ Node.type this' = Node.type n
    /\ Node.u this' = if nonzero (Node.type n) then Node.u (tree_of n)
                      else Node.variant Variant.default.
Proof.
  intros Hthis Hn.
  pose proof (Node_valid_position this Hthis) as Hpos.
  destruct (Node_valid_cases n Hn) as [[Hty (v & Hu & Hv)]|[Hty (cs & Hu & Hcs)]].
  - rewrite (Node_assign_leaf this n Hthis Hty), Hty.
    eexists. split; [reflexivity|].
    split; [|split; reflexivity].
    simpl. rewrite Hpos, Hty. reflexivity.
  - rewrite (Node_assign_branch this n cs Hthis Hn Hu), Hty.
    eexists. split; [reflexivity|].
    split; [|split; [reflexivity|]].
    + simpl. rewrite Hpos, Hty. simpl.
      apply forallb_Forall in Hcs. apply forallb_Forall.
      rewrite Forall_forall in *. intros y Hy.
      apply in_map_iff in Hy. destruct Hy as (z & <- & Hz).
      apply tree_of_valid, (Hcs z Hz).
    + destruct n as [ty l c un]. simpl in Hu. subst un. reflexivity.
Qed.

Lemma Node_assign_result_witness :
  let this := Node.mk 64 1 2 (Node.children []) in
  let n := Node.mk nullptr 3 4 (Node.variant (Variant.of_string "x")) in
  Node.valid this = true /\ Node.valid n = true
  /\ exists this', Node.assign this n = Return this'
                   /\ Node.u this' = Node.variant Variant.default.
Proof.
  intros this n. split; [reflexivity|]. split; [reflexivity|].
  destruct (Node_assign_result this n eq_refl eq_refl) as (this' & H & _ & _ & Hu).
  exists this'. split; [exact H|exact Hu].
Defined.

Lemma Node_move_spec (n : Node.t) :
  Node.valid n = true ->
  exists n' rest,
    Node.move n = Return (n', rest)
    /\ Node.valid n' = true /\ Node.valid rest = true
    /\ Node.type n' = Node.type n /\ Node.type rest = Node.type n
    /\ Node.line rest = Node.line n /\ Node.column rest = Node.column n
    /\ (nonzero (Node.type n) = true -> n' = n /\ Node.u rest = Node.children [])
    /\ (nonzero (Node.type n) = false ->
        exists v v' r,
          Node.u n = Node.variant v /\ Variant.move v = Return (v', r)
          /\ Node.u n' = Node.variant v' /\ Node.u rest = Node.variant r).
Proof.
  intros Hn. pose proof (Node_valid_position n Hn) as Hpos.
  unfold Node.move, Node.get_children, Node.get_variant.
  destruct (Node_valid_cases n Hn) as [[Hty (v & Hu & Hv)]|[Hty (cs & Hu & Hcs)]];
    rewrite Hty, Hu; node_step.
  - destruct (Variant_move_valid v Hv) as (v' & r & Hm & Hv' & Hr & _).
    rewrite Hm. node_step.
    eexists. eexists. split; [reflexivity|].
    split; [simpl; rewrite Hpos, Hty, Hv'; reflexivity|].
    split; [simpl; rewrite Hpos, Hty, Hr; reflexivity|].
    split; [reflexivity|]. split; [reflexivity|].
    split; [reflexivity|]. split; [reflexivity|].
    split; [discriminate|]. intros _. exists v, v', r. repeat split; assumption.
  - eexists. eexists. split; [reflexivity|].
    split; [simpl; rewrite Hpos, Hty; exact Hcs|].
    split; [simpl; rewrite Hpos, Hty; reflexivity|].
    split; [reflexivity|]. split; [reflexivity|].
    split; [reflexivity|]. split; [reflexivity|].
    split; [|discriminate]. intros _.
    split; [|reflexivity]. destruct n as [ty l c un]. simpl in Hu. subst un. reflexivity.
Qed.

(** X21. The move constructor of a well-formed node returns a well-formed
    node and leaves a well-formed source with its type, line and column. A
    branch is taken over whole, children included, and the source is left
    a branch without children; a leaf gets the variant the Variant move
    constructor builds, and the source keeps what that constructor leaves. *)
Theorem Node_move_transfers (n : Node.t) :
  Node.valid n = true ->
  exists n' rest,
    Node.move n = Return (n', rest)
    /\ Node.valid n' = true /\ Node.valid rest = true
    /\ Node.type n' = Node.type n /\ Node.type rest = Node.type n
    /\ Node.line rest = Node.line n /\ Node.column rest = Node.column n
    /\ (nonzero (Node.type n) = true -> n' = n /\ Node.u rest = Node.children [])
    /\ (nonzero (Node.type n) = false ->
        exists v v' r,
          Node.u n = Node.variant v /\ Variant.move v = Return (v', r)
          /\ Node.u n' = Node.variant v' /\ Node.u rest = Node.variant r).
Proof. exact (Node_move_spec n). Qed.

Lemma Node_move_transfers_witness :
  let leaf := Node.mk nullptr 3 4 (Node.variant (Variant.of_string "x")) in
  let n := Node.mk 64 1 2 (Node.children [leaf]) in
  Node.valid n = true
  /\ exists n' rest, Node.move n = Return (n', rest)
                     /\ n' = n /\ Node.u rest = Node.children [].
Proof.
  intros leaf n. split; [reflexivity|].
  destruct (Node_move_transfers n eq_refl)
    as (n' & rest & H & _ & _ & _ & _ & _ & _ & Hb & _).
  exists n', rest. split; [exact H|]. exact (Hb eq_refl).
Defined.

(** X22. Move assignment from a node outside the destination is the move
    constructor applied to the source, put at the destination's own line
    and column: the destination gets the type and the payload the move
    constructor would build, the source is left as the move constructor
    leaves it, both stay well-formed, and the library's order of vector
    move assignment makes no difference. *)
Theorem Node_assign_move_external (stl : Node.vector_move_assignment) (this n : Node.t) :
  Node.valid this = true -> Node.valid n = true ->
  exists n' rest,
    Node.move n = Return (n', rest)
    /\ Node.assign_move stl Node.External {| Node.this_ := this; Node.other := n |}
       = Return {| Node.this_ := Node.mk (Node.type n) (Node.line this) (Node.column this)
                                   (Node.u n');
                   Node.other := rest |}
    /\ Node.valid (Node.mk (Node.type n) (Node.line this) (Node.column this) (Node.u n')) = true
    /\ Node.valid rest = true.
Proof.
  intros Hthis Hn.
  pose proof (Node_valid_position this Hthis) as Hpos.
  destruct (Node_move_spec n Hn)
    as (n' & rest & Hmove & Hn' & Hrest & Hty1 & _ & _ & _ & _ & _).
  exists n', rest. split; [exact Hmove|].
  split; [|split; [|exact Hrest]].
  - revert Hmove. unfold Node.move, Node.assign_move.
    cbn [Node.this_ Node.read Node.other bind].
    destruct (Node_valid_cases this Hthis) as [[Hty (v & Hu & Hv)]|[Hty (cs & Hu & Hcs)]];
      rewrite Hty;
      destruct (Node_valid_cases n Hn) as [[Hty' (v' & Hu' & Hv')]|[Hty' (cs' & Hu' & Hcs')]];
      cbn [bind Node.read Node.other Node.this_ Node.set_this]; rewrite Hty';
      cbn [negb];
      try (destruct (Variant_move_returns v' Hv')
             as (v1 & r & Hm & _ & _ & _ & rest' & Hm'));
      unfold Node.get_variant, Node.children_assign_move, Node.get_children;
      try rewrite Hu'; cbn; try rewrite Hu; try rewrite Hu'; cbn;
      try rewrite Hm; cbn; try rewrite Hu; cbn; try rewrite Hm'; cbn;
      try (destruct stl; cbn; try rewrite Hu'; cbn; try rewrite Hu; cbn);
      intros Hmove; injection Hmove as <- <-; reflexivity.
  - destruct n' as [ty' l' c' un']. simpl in Hty1. subst ty'.
    simpl in Hn'. simpl. rewrite Hpos.
    apply andb_true_iff in Hn'. exact (proj2 Hn').
Qed.

Lemma Node_assign_move_external_witness :
  let leaf := Node.mk nullptr 3 4 (Node.variant (Variant.of_string "x")) in
  let this := Node.mk 64 1 2 (Node.children [leaf]) in
  Node.valid this = true /\ Node.valid leaf = true
  /\ exists n' rest,
       Node.move leaf = Return (n', rest)
       /\ Node.assign_move Node.release_then_take Node.External
            {| Node.this_ := this; Node.other := leaf |}
          = Return {| Node.this_ := Node.mk nullptr 1 2 (Node.u n'); Node.other := rest |}.
Proof.
  intros leaf this. split; [reflexivity|]. split; [reflexivity|].
  destruct (Node_assign_move_external Node.release_then_take this leaf eq_refl eq_refl)
    as (n' & rest & Hm & H & _).
  exists n', rest. split; [exact Hm|exact H].
Defined.

(** X23. Move assignment from a leaf that is a descendant of the
    destination returns under either library: the variant is moved out
    before the children of the destination are destroyed. The destination
    becomes a leaf with the discriminant and payload of the descendant and
    keeps its line and column; the node outside is not touched. *)
Theorem assign_move_from_own_leaf (stl : Node.vector_move_assignment)
    (this other n : Node.t) (k : nat) (path : list nat) (v : Variant.t) :
  Node.valid this = true ->
  Node.descend (k :: path) this = Return n ->
  Node.u n = Node.variant v ->
  exists v',
    Node.assign_move stl (Node.Descendant k path) {| Node.this_ := this; Node.other := other |}
    = Return {| Node.this_ := Node.mk nullptr (Node.line this) (Node.column this) (Node.variant v');
                Node.other := other |}
    /\ Variant.type v' = Variant.type v
    /\ (Variant.type v <> Variant.NIL -> Variant.u v' = Variant.u v).
Proof. exact (assign_move_leaf_descendant stl this other n k path v). Qed.

Lemma assign_move_from_own_leaf_witness :
  let leaf := Node.mk nullptr 3 4 (Node.variant (Variant.of_string "x")) in
  let this := Node.mk 64 1 2 (Node.children [Node.mk 72 5 6 (Node.children [leaf])]) in
  Node.valid this = true
  /\ Node.descend [0%nat; 0%nat] this = Return leaf
  /\ exists v',
       Node.assign_move Node.release_then_take (Node.Descendant 0 [0%nat])
         {| Node.this_ := this; Node.other := Node.default |}
       = Return {| Node.this_ := Node.mk nullptr 1 2 (Node.variant v');
                   Node.other := Node.default |}
       /\ Variant.type v' = Variant.STRING.
Proof.
  intros leaf this. split; [reflexivity|]. split; [reflexivity|].
  destruct (assign_move_from_own_leaf Node.release_then_take this Node.default leaf
              0%nat [0%nat] (Variant.of_string "x") eq_refl eq_refl eq_refl)
    as (v' & H & Ht & _).
  exists v'. split; [exact H|exact Ht].
Defined.

(** X24. Move assignment from a branch that is a descendant of the
    destination depends on the library's vector move assignment. Where the
    vector takes the source's buffer before it destroys its own elements,
    the destination becomes the descendant, at its own line and column;
    where the vector destroys its elements first, the descendant is
    destroyed before its children are taken, and the behaviour is
    undefined. *)
Theorem assign_move_from_own_branch (this other n : Node.t) (k : nat) (path : list nat)
    (cs : list Node.t) :
  Node.valid this = true ->
  Node.descend (k :: path) this = Return n ->
  Node.u n = Node.children cs ->
  Node.assign_move Node.take_then_release (Node.Descendant k path)
    {| Node.this_ := this; Node.other := other |}
  = Return {| Node.this_ := Node.mk (Node.type n) (Node.line this) (Node.column this)
                              (Node.children cs);
              Node.other := other |}
  /\ Node.assign_move Node.release_then_take (Node.Descendant k path)
       {| Node.this_ := this; Node.other := other |}
     = Undefined.
Proof.
  intros Hthis Hdesc Hu. split.
  - exact (assign_move_branch_descendant this other n k path cs Hthis Hdesc Hu).
  - exact (assign_move_branch_descendant_freed this other n k path cs Hthis Hdesc Hu).
Qed.

Lemma assign_move_from_own_branch_witness :
  let leaf := Node.mk nullptr 3 4 (Node.variant (Variant.of_string "x")) in
  let inner := Node.mk 72 5 6 (Node.children [leaf]) in
  let this := Node.mk 64 1 2 (Node.children [leaf; inner]) in
  Node.valid this = true
  /\ Node.descend [1%nat] this = Return inner
  /\ Node.assign_move Node.take_then_release (Node.Descendant 1 [])
       {| Node.this_ := this; Node.other := Node.default |}
     = Return {| Node.this_ := Node.mk 72 1 2 (Node.children [leaf]);
                 Node.other := Node.default |}
  /\ Node.assign_move Node.release_then_take (Node.Descendant 1 [])
       {| Node.this_ := this; Node.other := Node.default |}
     = Undefined.
Proof.
  intros leaf inner this. split; [reflexivity|]. split; [reflexivity|].
  exact (assign_move_from_own_branch this Node.default inner 1%nat [] [leaf]
           eq_refl eq_refl eq_refl).
Defined.

(** X25. [Node()] is a well-formed Nil leaf, and [Node(const Variant& v)]
    of a well-formed variant a well-formed leaf that holds a copy of it.
    [Node(const NodeType* type)] constructs the children whatever the
    pointer is: the node is well-formed exactly when the pointer is not null, and
    a node built from a null pointer is a leaf by its type whose union
    holds the vector, so that copying it, moving from it, walking it and
    asking for its string are all undefined. *)
Theorem Node_constructors (m : Memory) :
  Node.valid Node.default = true
  /\ (forall v, Variant.valid v = true ->
        Node.of_variant v = Return (Node.mk nullptr 0 0 (Node.variant (value_of v)))
        /\ Node.valid (Node.mk nullptr 0 0 (Node.variant (value_of v))) = true)
  /\ (forall type, Node.valid (Node.of_type type) = nonzero type)
  /\ Node.copy (Node.of_type nullptr) = Undefined
  /\ Node.move (Node.of_type nullptr) = Undefined
  /\ Node.getString m (Node.of_type nullptr) = Undefined
  /\ (forall stl this,
        Node.assign_move stl Node.External
          {| Node.this_ := this; Node.other := Node.of_type nullptr |} = Undefined).
Proof.
  split; [reflexivity|].
  split; [intros v Hv; unfold Node.of_variant;
          rewrite (Variant_copy_value v Hv); split; [reflexivity|];
          simpl; rewrite (value_of_valid v Hv); reflexivity|].
  split; [intros type; unfold Node.of_type; simpl; apply andb_true_r|].
  split; [reflexivity|]. split; [reflexivity|]. split; [reflexivity|].
  intros stl [ty l c [|v|cs]]; unfold Node.assign_move; node_step;
    destruct (nonzero ty); reflexivity.
Qed.

Lemma Node_constructors_witness :
  Variant.valid (Variant.of_string "x") = true
  /\ Node.of_variant (Variant.of_string "x")
     = Return (Node.mk nullptr 0 0 (Node.variant (Variant.of_string "x")))
  /\ Node.valid (Node.of_type 64) = true
  /\ Node.valid (Node.of_type nullptr) = false.
Proof.
  pose proof (Node_constructors {| base := 4096; bytes := "x" |}) as (_ & Hv & Ht & _).
  split; [reflexivity|].
  split; [exact (proj1 (Hv (Variant.of_string "x") eq_refl))|].
  split; [exact (Ht 64)|exact (Ht nullptr)].
Defined.

(** ** Int to Float and back *)

Lemma digits2_pos_lower (m : positive) : 2 ^ (Zpos (digits2_pos m) - 1) <= Zpos m.
Proof.
  induction m as [m IH|m IH|]; simpl digits2_pos.
  - rewrite Pos2Z.inj_succ. replace (Z.succ (Zpos (digits2_pos m)) - 1)
      with (Z.succ (Zpos (digits2_pos m) - 1)) by lia.
    rewrite Z.pow_succ_r by lia. lia.
  - rewrite Pos2Z.inj_succ. replace (Z.succ (Zpos (digits2_pos m)) - 1)
      with (Z.succ (Zpos (digits2_pos m) - 1)) by lia.
    rewrite Z.pow_succ_r by lia. lia.
  - reflexivity.
Qed.

Lemma iter_xO_digits (k p : positive) :
  digits2_pos (Pos.iter xO p k) = (digits2_pos p + k)%positive
  /\ Zpos (Pos.iter xO p k) = Zpos p * 2 ^ Zpos k.
Proof.
  induction k as [|k IH] using Pos.peano_ind.
  - simpl. split; lia.
  - rewrite Pos.iter_succ. destruct IH as [IHd IHv]. simpl digits2_pos.
    rewrite IHd, Pos2Z.inj_xO, IHv, Pos2Z.inj_succ, Z.pow_succ_r by lia.
    split; lia.
Qed.

(** Rounding an integer of at most 53 bits is exact: the mantissa is the
    integer shifted to 53 bits. *)
Lemma binary_round_exact (s : bool) (p : positive) :
  Zpos p < 2 ^ 53 ->
  exists m e,
    binary_round 53 1024 s p 0 = S754_finite s m e
    /\ -52 <= e <= 0 /\ Zpos m = Zpos p * 2 ^ (- e) /\ digits2_pos m = 53%positive.
Proof.
  intros Hp.
  pose proof (digits2_pos_lower p) as Hlo.
  assert (Hd : Zpos (digits2_pos p) <= 53).
  { destruct (Z.le_gt_cases (Zpos (digits2_pos p)) 53) as [H|H]; [exact H|].
    exfalso. assert (2 ^ 53 <= 2 ^ (Zpos (digits2_pos p) - 1))
      by (apply Z.pow_le_mono_r; lia). lia. }
  assert (Haux : forall (m : positive) (e : Z),
             digits2_pos m = 53%positive -> -52 <= e <= 0 ->
             binary_round_aux 53 1024 s (Zpos m) e loc_Exact = S754_finite s m e).
  { intros m e Hm He.
    unfold binary_round_aux, shr_fexp, fexp, emin, Zdigits2. rewrite Hm.
    replace (Z.max (53 + e - 53) (3 - 1024 - 53) - e) with 0 by lia.
    cbn [shr shr_record_of_loc loc_of_shr_record shr_m shr_r shr_s round_nearest_even
         Zdigits2].
    rewrite Hm.
    replace (Z.max (53 + e - 53) (3 - 1024 - 53) - e) with 0 by lia.
    cbn [shr shr_m].
    destruct (Z.leb_spec e (1024 - 53)); [reflexivity|lia]. }
  unfold binary_round, shl_align, fexp, emin.
  replace (Z.max (Zpos (digits2_pos p) + 0 - 53) (3 - 1024 - 53) - 0)
    with (Zpos (digits2_pos p) - 53) by lia.
  destruct (Zpos (digits2_pos p) - 53) as [|k|k] eqn:E; [|lia|].
  - exists p, 0. split; [apply Haux; lia|].
    split; [lia|]. split; [simpl; lia|lia].
  - destruct (iter_xO_digits k p) as [Hsd Hsv].
    replace (Z.max (Zpos (digits2_pos p) + 0 - 53) (3 - 1024 - 53))
      with (Zneg k) by lia.
    exists (Pos.iter xO p k), (Zneg k).
    split; [apply Haux; lia|].
    split; [lia|]. split; [|lia].
    rewrite Hsv. reflexivity.
Qed.

Lemma to_long_long_to_double (i : Z) :
  - 2 ^ 53 < i < 2 ^ 53 ->
  is_double (to_double i) = true /\ to_long_long (to_double i) = Return i.
Proof.
  intros Hi. unfold to_double, binary_normalize.
  assert (Hfin : forall (s : bool) (p : positive),
             Zpos p < 2 ^ 53 ->
             is_double (binary_round 53 1024 s p 0) = true
             /\ to_long_long (binary_round 53 1024 s p 0)
                = Return (if s then Zneg p else Zpos p)).
  { intros s p Hp.
    destruct (binary_round_exact s p Hp) as (m & e & -> & He & Hm & Hd).
    split.
    - unfold is_double, valid_binary, bounded, canonical_mantissa, fexp, emin.
      rewrite Hd. apply andb_true_iff. split; [apply Z.eqb_eq; lia|apply Z.leb_le; lia].
    - unfold to_long_long.
      assert (H2 : 0 < 2 ^ (- e)) by (apply Z.pow_pos_nonneg; lia).
      assert (Hmag : (if 0 <=? e then Zpos m * 2 ^ e else Zpos m / 2 ^ (- e)) = Zpos p).
      { destruct (Z.leb_spec 0 e) as [H0|H0].
        - assert (e = 0) by lia. subst e. simpl in Hm. lia.
        - rewrite Hm. apply Z.div_mul. lia. }
      rewrite Hmag.
      unfold is_long_long, LLONG_MIN, LLONG_MAX.
      assert (H53 : 2 ^ 53 < 2 ^ 63) by reflexivity.
      destruct s.
      + destruct (Z.leb_spec (- 2 ^ 63) (- Zpos p)); [|lia].
        destruct (Z.leb_spec (- Zpos p) (2 ^ 63 - 1)); [|lia]. reflexivity.
      + destruct (Z.leb_spec (- 2 ^ 63) (Zpos p)); [|lia].
        destruct (Z.leb_spec (Zpos p) (2 ^ 63 - 1)); [|lia]. reflexivity. }
  destruct i as [|p|p].
  - split; reflexivity.
  - apply (Hfin false p). lia.
  - apply (Hfin true p). lia.
Qed.

(** X26. An Int of magnitude below 2^53 survives the conversion to Float
    and back: [getFloat] gives a double, and [getInt] of that Float is the
    Int again. *)
Theorem getInt_of_getFloat (m : Memory) (i : Z) :
  - 2 ^ 53 < i < 2 ^ 53 ->
  exists f,
    Variant.getFloat m (Variant.of_long_long i) = Return f
    /\ Variant.valid (Variant.of_double f) = true
    /\ Variant.getInt m (Variant.of_double f) = Return i.
Proof.
  intros Hi. destruct (to_long_long_to_double i Hi) as [Hd Hl].
  exists (to_double i). split; [reflexivity|]. split; [exact Hd|].
  change (Variant.getInt m (Variant.of_double (to_double i)))
    with (to_long_long (to_double i)).
  exact Hl.
Qed.

Lemma getInt_of_getFloat_witness :
  - 2 ^ 53 < -9007199254740991 < 2 ^ 53
  /\ exists f,
       Variant.getFloat {| base := 4096; bytes := "x" |}
         (Variant.of_long_long (-9007199254740991)) = Return f
       /\ Variant.getInt {| base := 4096; bytes := "x" |} (Variant.of_double f)
          = Return (-9007199254740991).
Proof.
  split; [split; reflexivity|].
  destruct (getInt_of_getFloat {| base := 4096; bytes := "x" |} (-9007199254740991))
    as (f & Hf & _ & Hi); [split; reflexivity|].
  exists f. split; [exact Hf|exact Hi].
Defined.

(** X27. An Int and the String of its decimal text are neither equal nor
    ordered: [<] converts the right operand to the kind of the left one,
    where the two have the same value, and [==] compares the discriminants
    first. *)
Theorem int_and_its_text (m : Memory) (i : Z) :
  is_long_long i = true ->
  let a := Variant.of_long_long i in
  let b := Variant.of_string (LibC.to_string i) in
  Variant.lt m a b = Return false /\ Variant.lt m b a = Return false
  /\ Variant.eq a b = Return false /\ Variant.eq b a = Return false.
Proof.
  intros Hi a b.
  unfold is_long_long in Hi. apply andb_true_iff in Hi. destruct Hi as [Hlo Hhi].
  apply Z.leb_le in Hlo. apply Z.leb_le in Hhi.
  split; [|split; [|split; reflexivity]].
  - unfold a, b, Variant.lt. cbn [Variant.type Variant.of_long_long Variant.get_i Variant.u bind].
    rewrite getInt_string, atoll_c_str.
    rewrite <- (append_empty_r (LibC.to_string i)).
    rewrite (atoll_to_string i "" (conj Hlo Hhi) eq_refl). cbn [bind].
    rewrite Z.ltb_irrefl. reflexivity.
  - unfold a, b. rewrite lt_string.
    change (Variant.getString m (Variant.of_long_long i)) with (Return (LibC.to_string i)).
    cbn [bind]. rewrite string_ltb_compare.
    pose proof (String.compare_antisym (LibC.to_string i) (LibC.to_string i)) as H.
    destruct (String.compare (LibC.to_string i) (LibC.to_string i));
      simpl in H; try discriminate H; reflexivity.
Qed.

Lemma int_and_its_text_witness :
  is_long_long (-42) = true
  /\ Variant.lt {| base := 4096; bytes := "x" |}
       (Variant.of_long_long (-42)) (Variant.of_string "-42") = Return false
  /\ Variant.lt {| base := 4096; bytes := "x" |}
       (Variant.of_string "-42") (Variant.of_long_long (-42)) = Return false.
Proof.
  split; [reflexivity|].
  destruct (int_and_its_text {| base := 4096; bytes := "x" |} (-42) eq_refl)
    as (H1 & H2 & _).
  split; [exact H1|exact H2].
Defined.

(** ** A string assigned over another member *)

(** X28. Copy assignment of a String to a destination that is not a String
    constructs a string in the destination's storage and leaves the
    discriminant: the result is ill-formed, and its destructor never
    destroys that string. It makes no call at all, or, where the
    destination was an Array, destroys a vector where the string lives. *)
Theorem assign_string_never_destroyed (spare : list nat -> nat) (this : Variant.t)
    (s : string) :
  Variant.type this <> Variant.STRING ->
  let this' := Variant.mk (Variant.type this) (Variant.s_ s) in
  Variant.assign spare this (Variant.of_string s)
  = Return (this', [Variant.construct_string])
  /\ Variant.valid this' = false
  /\ Variant.destructor this'
     = if Variant.Type_eqb (Variant.type this) Variant.ARRAY then Undefined else Return [].
Proof.
  intros Hty this'. subst this'. destruct this as [ty un]. simpl in Hty.
  destruct ty; try congruence; repeat split; reflexivity.
Qed.

Lemma assign_string_never_destroyed_witness :
  Variant.type (Variant.of_vector [Variant.of_long_long 1]) <> Variant.STRING
  /\ Variant.assign (fun _ => O) (Variant.of_vector [Variant.of_long_long 1])
       (Variant.of_string "x")
     = Return (Variant.mk Variant.ARRAY (Variant.s_ "x"), [Variant.construct_string])
  /\ Variant.destructor (Variant.mk Variant.ARRAY (Variant.s_ "x")) = Undefined.
Proof.
  assert (H : Variant.type (Variant.of_vector [Variant.of_long_long 1]) <> Variant.STRING)
    by discriminate.
  split; [exact H|].
  destruct (assign_string_never_destroyed (fun _ => O)
              (Variant.of_vector [Variant.of_long_long 1]) "x" H)
    as (Ha & _ & Hd).
  split; [exact Ha|exact Hd].
Defined.
